(** * kiss/net: the RPC client (rpcclient.go)

    A shallow embedding of [RpcClient]: the correlation counter, the
    session table, the one-shot result channels, and the three pieces of
    code that touch them -- the call dispatcher ([callCmd],
    [callCmdWithTimeout]), the inbound message handler installed by
    [NewRpcClient], and its [OnClose] callback.  Every goroutine is a
    small program counter machine over the shared client state; a
    configuration is the shared state plus a pool of goroutines, and one
    step runs one statement of one goroutine. *)

From Stdlib Require Import ZArith Lia Bool.
From Stdlib Require Import Strings.Byte.
From stdpp Require Import base option list gmap.

(** ** Machine integers *)

Definition min_int64 : Z := (- 2 ^ 63)%Z.
Definition max_int64 : Z := (2 ^ 63 - 1)%Z.

(** Two's complement reduction of a mathematical integer to [int64]. *)
Definition wrap_int64 (z : Z) : Z := ((z + 2 ^ 63) mod 2 ^ 64 - 2 ^ 63)%Z.

(** [atomic.AddInt64(&v, delta)]: the new value, which is also stored. *)
Definition AddInt64 (v delta : Z) : Z := wrap_int64 (v + delta)%Z.

(** The Go conversion [byte(n)] of a non-negative [int]. *)
Definition byte_of_int (n : nat) : byte :=
  default x00 (Byte.of_N (N.of_nat n mod 256)).

(** ** Errors, frames, envelopes *)

Inductive error : Type :=
| ErrRpcClientIsDisconnected
| ErrRpcCallTimeout
| ErrRpcCallClientError
| errors_New (text : list byte).

(** Modelled from the spec: the [IMessage] interface and [NewRpcMessage]
    are declared outside rpcclient.go; a frame is a command code, a
    correlation sequence number and a body. *)
Record IMessage : Type := NewRpcMessage { Cmd : Z; RpcSeq : Z; Body : list byte }.

Record RpcMessage : Type := { msg : IMessage; err : option error }.

(** What [callCmd] returns: [([]byte, error)], [None] standing for [nil]. *)
Inductive result : Type := Ret (payload : option (list byte)) (e : option error).

(** ** Channels of [*RpcMessage] *)

Record chan : Type := { buf : list RpcMessage; cap : nat; closed : bool }.

Definition make_chan (n : nat) : chan := {| buf := []; cap := n; closed := false |}.

Inductive send_res : Type := Sent (c : chan) | SendBlocks | SendPanics.
Inductive recv_res : Type := Received (v : RpcMessage) (c : chan) | RecvClosed | RecvBlocks.

Definition chan_send (v : RpcMessage) (c : chan) : send_res :=
  if closed c then SendPanics
  else if length (buf c) <? cap c
       then Sent {| buf := buf c ++ [v]; cap := cap c; closed := false |}
       else SendBlocks.

Definition chan_recv (c : chan) : recv_res :=
  match buf c with
  | v :: rest => Received v {| buf := rest; cap := cap c; closed := closed c |}
  | [] => if closed c then RecvClosed else RecvBlocks
  end.

(** [close(c)]: [None] is the run-time panic on a closed channel. *)
Definition chan_close (c : chan) : option chan :=
  if closed c then None else Some {| buf := buf c; cap := cap c; closed := true |}.

(** ** The client *)

(** [done] is a reference into the heap of result channels: the session
    is shared between the table, the caller that waits on it and the
    handler that looked it up. *)
Record rpcsession : Type := { seq : Z; done : nat }.

(** The fields of [RpcClient] (and of the embedded [TcpClient]) that
    rpcclient.go reads or writes.  [mu] is the embedded mutex, recording
    which goroutine locked it. *)
Record RpcClient : Type := {
  mu : option nat;
  running : bool;
  sendSeq : Z;
  chSend : list IMessage;
  sendQsize : nat;
  sessionMap : gmap Z rpcsession;
  heap : list chan
}.

Definition set_mu (o : option nat) (c : RpcClient) : RpcClient :=
  {| mu := o; running := running c; sendSeq := sendSeq c; chSend := chSend c;
     sendQsize := sendQsize c; sessionMap := sessionMap c; heap := heap c |}.

Definition set_running (b : bool) (c : RpcClient) : RpcClient :=
  {| mu := mu c; running := b; sendSeq := sendSeq c; chSend := chSend c;
     sendQsize := sendQsize c; sessionMap := sessionMap c; heap := heap c |}.

Definition set_sendSeq (z : Z) (c : RpcClient) : RpcClient :=
  {| mu := mu c; running := running c; sendSeq := z; chSend := chSend c;
     sendQsize := sendQsize c; sessionMap := sessionMap c; heap := heap c |}.

Definition set_chSend (q : list IMessage) (c : RpcClient) : RpcClient :=
  {| mu := mu c; running := running c; sendSeq := sendSeq c; chSend := q;
     sendQsize := sendQsize c; sessionMap := sessionMap c; heap := heap c |}.

Definition set_sessionMap (m : gmap Z rpcsession) (c : RpcClient) : RpcClient :=
  {| mu := mu c; running := running c; sendSeq := sendSeq c; chSend := chSend c;
     sendQsize := sendQsize c; sessionMap := m; heap := heap c |}.

Definition set_heap (h : list chan) (c : RpcClient) : RpcClient :=
  {| mu := mu c; running := running c; sendSeq := sendSeq c; chSend := chSend c;
     sendQsize := sendQsize c; sessionMap := sessionMap c; heap := h |}.

(** Lines 33-36 of [removeSession]: delete, then replace an emptied map
    by a new empty one. *)
Definition removeSession_body (id : Z) (m : gmap Z rpcsession) : gmap Z rpcsession :=
  let m' := delete id m in
  if decide (size m' = 0) then ∅ else m'.

(** ** The call dispatcher *)

(** Program points of [callCmd] (first line number) and of
    [callCmdWithTimeout] (second), with the live local variables. *)
Inductive callpc : Type :=
| c_lock (cmd : Z) (data : list byte)          (* 43 / 68  client.Lock() *)
| c_check (cmd : Z) (data : list byte)         (* 44 / 69  if client.running *)
| c_alloc (cmd : Z) (data : list byte)         (* 45-49 / 70-74 *)
| c_send (s : rpcsession) (m : IMessage)       (* 50 / 75-78 *)
| c_timeout_unlock                             (*      79-80 *)
| c_register (s : rpcsession)                  (* 51 / 77 *)
| c_disc_unlock                                (* 53-54 / 83-84 *)
| c_unlock (s : rpcsession)                    (* 56 / 86 *)
| c_wait (s : rpcsession)                      (* 58-62 / 88-96 *)
| c_fallthrough (s : rpcsession)               (*      97 *)
| c_defer_lock (s : rpcsession) (r : result)   (* 57 / 87 -> 32 *)
| c_defer_delete (s : rpcsession) (r : result) (* 33-36 *)
| c_defer_unlock (s : rpcsession) (r : result) (* 37 *)
| c_return (r : result).

(** One statement of goroutine [t] running [callCmd] ([timed = false]) or
    [callCmdWithTimeout] ([timed = true]).  [fire] says that the timer of
    [time.After(timeout)] has delivered and that the [select] picks it.
    [None]: the goroutine is blocked (or has returned). *)
Definition caller_step (timed : bool) (t : nat) (fire : bool)
    (p : callpc) (c : RpcClient) : option (callpc * RpcClient) :=
  match p with
  | c_lock cmd data =>
      match mu c with
      | None => Some (c_check cmd data, set_mu (Some t) c)
      | Some _ => None
      end
  | c_check cmd data =>
      Some (if running c then c_alloc cmd data else c_disc_unlock, c)
  | c_alloc cmd data =>
      let id := AddInt64 (sendSeq c) 1%Z in
      let s := {| seq := id; done := length (heap c) |} in
      Some (c_send s (NewRpcMessage cmd id data),
            set_heap (heap c ++ [make_chan 1]) (set_sendSeq id c))
  | c_send s m =>
      if timed && fire then Some (c_timeout_unlock, c)
      else if length (chSend c) <? sendQsize c
           then Some (c_register s, set_chSend (chSend c ++ [m]) c)
           else None
  | c_timeout_unlock =>
      Some (c_return (Ret None (Some ErrRpcCallTimeout)), set_mu None c)
  | c_register s =>
      Some (c_unlock s, set_sessionMap (<[seq s := s]> (sessionMap c)) c)
  | c_disc_unlock =>
      Some (c_return (Ret None (Some ErrRpcClientIsDisconnected)), set_mu None c)
  | c_unlock s => Some (c_wait s, set_mu None c)
  | c_wait s =>
      if timed && fire
      then Some (c_defer_lock s (Ret None (Some ErrRpcCallTimeout)), c)
      else match heap c !! done s with
           | Some ch =>
               match chan_recv ch with
               | Received v ch' =>
                   Some (c_defer_lock s (Ret (Some (Body (msg v))) (err v)),
                         set_heap (<[done s := ch']> (heap c)) c)
               | RecvClosed =>
                   Some (c_defer_lock s (Ret None (Some ErrRpcClientIsDisconnected)), c)
               | RecvBlocks => None
               end
           | None => None
           end
  | c_fallthrough s =>
      Some (c_defer_lock s (Ret None (Some ErrRpcCallClientError)), c)
  | c_defer_lock s r =>
      match mu c with
      | None => Some (c_defer_delete s r, set_mu (Some t) c)
      | Some _ => None
      end
  | c_defer_delete s r =>
      Some (c_defer_unlock s r,
            set_sessionMap (removeSession_body (seq s) (sessionMap c)) c)
  | c_defer_unlock s r => Some (c_return r, set_mu None c)
  | c_return _ => None
  end.

(** Runs a caller for at most [n] statements, stopping where it blocks or
    returns.  [fire] tells, per program point, whether the timer wins. *)
Fixpoint run_caller (n : nat) (timed : bool) (t : nat) (fire : callpc → bool)
    (p : callpc) (c : RpcClient) : callpc * RpcClient :=
  match n with
  | O => (p, c)
  | S n' =>
      match caller_step timed t (fire p) p c with
      | Some (p', c') => run_caller n' timed t fire p' c'
      | None => (p, c)
      end
  end.

(** ** The named-method adapter *)

(** [copy(dst[off:], src)]. *)
Definition copy_at (dst : list byte) (off : nat) (src : list byte) : list byte :=
  let k := (length dst - off) `min` length src in
  take off dst ++ take k src ++ drop (off + k) dst.

(** Lines 143-145 of [Call]. *)
Definition append_method (data method : list byte) : list byte :=
  let data1 := data ++ replicate (length method + 1) x00 in
  let data2 := copy_at data1 (length data1 - length method - 1) method in
  <[length data2 - 1 := byte_of_int (length method)]> data2.

(** The reserved command codes.  Their values are declared outside
    rpcclient.go; the [switch] of the message handler lists them as
    distinct constant cases. *)
Class CmdCodes : Type := {
  CmdPing : Z;
  CmdRpcMethod : Z;
  CmdRpcError : Z;
  ping_not_method : CmdPing ≠ CmdRpcMethod;
  ping_not_error : CmdPing ≠ CmdRpcError;
  method_not_error : CmdRpcMethod ≠ CmdRpcError
}.

(** The [ICodec] interface, as far as the client uses it. *)
Class ICodec (Req Rsp : Type) : Type := {
  Marshal : Req → list byte + error;
  Unmarshal : list byte → Rsp + error
}.

Section Client.
Context `{codes : CmdCodes}.

(** Lines 112-118 (and 128-134, 147-153): what the public wrappers make
    of the dispatcher's result when the caller passes a non-nil [rsp]. *)
Definition decode_reply {Req Rsp : Type} `{ICodec Req Rsp}
    (r : result) : option Rsp * option error :=
  match r with
  | Ret _ (Some e) => (None, Some e)
  | Ret rspdata None =>
      match Unmarshal (default [] rspdata) with
      | inl v => (Some v, None)
      | inr e => (None, Some e)
      end
  end.

(** ** The inbound message handler (lines 186-217) *)

Inductive reply : Type := reply_ok | reply_error.

(** The envelope built at line 194, respectively 203. *)
Definition envelope (k : reply) (m : IMessage) : RpcMessage :=
  match k with
  | reply_ok => {| msg := m; err := None |}
  | reply_error => {| msg := m; err := Some (errors_New (Body m)) |}
  end.

Inductive routepc : Type :=
| r_switch (m : IMessage)                                   (* 187 *)
| r_lock (k : reply) (m : IMessage)                         (* 190 / 199 *)
| r_lookup (k : reply) (m : IMessage)                       (* 191 / 200 *)
| r_unlock (k : reply) (m : IMessage) (o : option rpcsession) (* 192 / 201 *)
| r_deliver (s : rpcsession) (v : RpcMessage)               (* 194 / 203 *)
| r_log (m : IMessage)                                      (* 196 / 205 *)
| r_default (m : IMessage)                                  (* 208-215 *)
| r_done
| r_panic.

Definition router_step (t : nat) (p : routepc) (c : RpcClient)
    : option (routepc * RpcClient) :=
  match p with
  | r_switch m =>
      Some (if decide (Cmd m = CmdPing) then r_done
            else if decide (Cmd m = CmdRpcMethod) then r_lock reply_ok m
            else if decide (Cmd m = CmdRpcError) then r_lock reply_error m
            else r_default m, c)
  | r_lock k m =>
      match mu c with
      | None => Some (r_lookup k m, set_mu (Some t) c)
      | Some _ => None
      end
  | r_lookup k m => Some (r_unlock k m (sessionMap c !! RpcSeq m), c)
  | r_unlock k m o =>
      Some (match o with
            | Some s => r_deliver s (envelope k m)
            | None => r_log m
            end, set_mu None c)
  | r_deliver s v =>
      match heap c !! done s with
      | Some ch =>
          match chan_send v ch with
          | Sent ch' => Some (r_done, set_heap (<[done s := ch']> (heap c)) c)
          | SendBlocks => None
          | SendPanics => Some (r_panic, c)
          end
      | None => None
      end
  | r_log m => Some (r_done, c)
  | r_default m => Some (r_done, c)
  | r_done => None
  | r_panic => None
  end.

Fixpoint run_router (n : nat) (t : nat) (p : routepc) (c : RpcClient)
    : routepc * RpcClient :=
  match n with
  | O => (p, c)
  | S n' =>
      match router_step t p c with
      | Some (p', c') => run_router n' t p' c'
      | None => (p, c)
      end
  end.

(** ** The close callback (lines 177-184) *)

Inductive closepc : Type :=
| x_lock                              (* 178 *)
| x_stop
| x_range                             (* 180 *)
| x_close (todo : list rpcsession)    (* 181 *)
| x_reset                             (* 183 *)
| x_unlock (panicking : bool)         (* 179, deferred *)
| x_done
| x_panic.

(** Modelled from the spec: the write [running = false] belongs to the
    transport's close path, which is not part of rpcclient.go; the spec
    places it under the same lock acquisition as the drain of the table.
    It is the step out of [x_stop]; all other steps are the callback. *)
Definition closer_step (t : nat) (p : closepc) (c : RpcClient)
    : option (closepc * RpcClient) :=
  match p with
  | x_lock =>
      match mu c with
      | None => Some (x_stop, set_mu (Some t) c)
      | Some _ => None
      end
  | x_stop => Some (x_range, set_running false c)
  | x_range => Some (x_close (snd <$> map_to_list (sessionMap c)), c)
  | x_close [] => Some (x_reset, c)
  | x_close (s :: todo) =>
      match heap c !! done s with
      | Some ch =>
          match chan_close ch with
          | Some ch' => Some (x_close todo, set_heap (<[done s := ch']> (heap c)) c)
          | None => Some (x_unlock true, c)
          end
      | None => None
      end
  | x_reset => Some (x_unlock false, set_sessionMap ∅ c)
  | x_unlock panicking => Some (if panicking then x_panic else x_done, set_mu None c)
  | x_done => None
  | x_panic => None
  end.

Fixpoint run_closer (n : nat) (t : nat) (p : closepc) (c : RpcClient)
    : closepc * RpcClient :=
  match n with
  | O => (p, c)
  | S n' =>
      match closer_step t p c with
      | Some (p', c') => run_closer n' t p' c'
      | None => (p, c)
      end
  end.

(** ** Goroutines and configurations *)

(** [Writer] is the transport's writer goroutine, the receiving end of
    the send queue. *)
Inductive goroutine : Type :=
| Caller (timed : bool) (p : callpc)
| Handler (p : routepc)
| Closer (p : closepc)
| Writer.

(** The goroutine that enters [callCmd], respectively
    [callCmdWithTimeout], with the given command code and payload. *)
Definition callCmd (cmd : Z) (data : list byte) : goroutine :=
  Caller false (c_lock cmd data).

Definition callCmdWithTimeout (cmd : Z) (data : list byte) : goroutine :=
  Caller true (c_lock cmd data).

(** The handler registered by [engine.HandleOnMessage] (line 186), run on
    one inbound frame, and the callback registered by [OnClose] (line
    177). *)
Definition HandleOnMessage (m : IMessage) : goroutine := Handler (r_switch m).

Definition OnClose : goroutine := Closer x_lock.

(** [CallCmd] and [CallCmdWithTimeout] up to the dispatch (lines 107-111,
    123-127): the dispatcher they start, or the codec's error. *)
Definition CallCmd {Req Rsp : Type} `{ICodec Req Rsp}
    (cmd : Z) (req : Req) : goroutine + error :=
  match Marshal req with
  | inr e => inr e
  | inl data => inl (callCmd cmd data)
  end.

Definition CallCmdWithTimeout {Req Rsp : Type} `{ICodec Req Rsp}
    (cmd : Z) (req : Req) : goroutine + error :=
  match Marshal req with
  | inr e => inr e
  | inl data => inl (callCmdWithTimeout cmd data)
  end.

(** [Call] up to the dispatch (lines 139-146). *)
Definition Call {Req Rsp : Type} `{ICodec Req Rsp}
    (method : list byte) (req : Req) : goroutine + error :=
  match Marshal req with
  | inr e => inr e
  | inl data => inl (callCmdWithTimeout CmdRpcMethod (append_method data method))
  end.

Definition goroutine_step (t : nat) (fire : bool) (g : goroutine) (c : RpcClient)
    : option (goroutine * RpcClient) :=
  match g with
  | Caller timed p => prod_map (Caller timed) id <$> caller_step timed t fire p c
  | Handler p => prod_map Handler id <$> router_step t p c
  | Closer p => prod_map Closer id <$> closer_step t p c
  | Writer =>
      match chSend c with
      | _ :: q => Some (Writer, set_chSend q c)
      | [] => None
      end
  end.

Record config : Type := { client : RpcClient; pool : list goroutine }.

(** Goroutine [t] runs one statement. *)
Definition exec (t : nat) (fire : bool) (cfg : config) : option config :=
  match pool cfg !! t with
  | Some g =>
      match goroutine_step t fire g (client cfg) with
      | Some (g', c') => Some {| client := c'; pool := <[t := g']> (pool cfg) |}
      | None => None
      end
  | None => None
  end.

(** The correlation ID obtained by the step from [cfg] to [cfg'], if the
    step is the allocation of lines 46 / 71. *)
Definition allocated (t : nat) (cfg cfg' : config) : list Z :=
  match pool cfg !! t, pool cfg' !! t with
  | Some (Caller _ (c_alloc _ _)), Some (Caller _ (c_send s _)) => [seq s]
  | _, _ => []
  end.

(** Executions, with the correlation IDs allocated along them, oldest
    first. *)
Inductive execution (cfg0 : config) : list Z → config → Prop :=
| execution_nil : execution cfg0 [] cfg0
| execution_snoc ids cfg t fire cfg' :
    execution cfg0 ids cfg →
    exec t fire cfg = Some cfg' →
    execution cfg0 (ids ++ allocated t cfg cfg') cfg'.

Fixpoint run_schedule (sched : list (nat * bool)) (ids : list Z) (cfg : config)
    : option (list Z * config) :=
  match sched with
  | [] => Some (ids, cfg)
  | (t, fire) :: sched' =>
      match exec t fire cfg with
      | Some cfg' => run_schedule sched' (ids ++ allocated t cfg cfg') cfg'
      | None => None
      end
  end.

Definition started (g : goroutine) : bool :=
  match g with
  | Caller _ (c_lock _ _) | Handler (r_switch _) | Closer x_lock | Writer => true
  | _ => false
  end.

(** A client as [NewRpcClient] leaves it (line 176: an empty table), with
    goroutines that have not run yet. *)
Definition initial (cfg : config) : Prop :=
  mu (client cfg) = None ∧ sessionMap (client cfg) = ∅ ∧ heap (client cfg) = [] ∧
  forallb started (pool cfg) = true.

Definition reachable (cfg : config) : Prop :=
  ∃ cfg0 ids, initial cfg0 ∧ execution cfg0 ids cfg.

(** Program points between a [Lock] and the matching [Unlock]. *)
Definition holds_lock (g : goroutine) : bool :=
  match g with
  | Caller _ p =>
      match p with
      | c_check _ _ | c_alloc _ _ | c_send _ _ | c_timeout_unlock | c_register _
      | c_disc_unlock | c_unlock _ | c_defer_delete _ _ | c_defer_unlock _ _ => true
      | _ => false
      end
  | Handler p =>
      match p with r_lookup _ _ | r_unlock _ _ _ => true | _ => false end
  | Closer p =>
      match p with
      | x_stop | x_range | x_close _ | x_reset | x_unlock _ => true
      | _ => false
      end
  | Writer => false
  end.

(** The code a reply of kind [k] carries. *)
Definition reply_code (k : reply) : Z :=
  match k with reply_ok => CmdRpcMethod | reply_error => CmdRpcError end.

(** The configuration a schedule leads to (the start, if a goroutine of
    the schedule is blocked at its turn). *)
Definition after (sched : list (nat * bool)) (cfg0 : config) : config :=
  match run_schedule sched [] cfg0 with
  | Some (_, cfg) => cfg
  | None => cfg0
  end.

End Client.

(** ** Notions used in the statements *)

Definition never : callpc → bool := λ _, false.

Definition at_send (p : callpc) : bool :=
  match p with c_send _ _ => true | _ => false end.

Definition at_wait (p : callpc) : bool :=
  match p with c_wait _ => true | _ => false end.

Definition at_lock (p : callpc) : bool :=
  match p with c_lock _ _ | c_defer_lock _ _ => true | _ => false end.

(** The session of a call that has passed the registration of line 51,
    respectively 77. *)
Definition session_of (p : callpc) : option rpcsession :=
  match p with
  | c_unlock s | c_wait s | c_fallthrough s
  | c_defer_lock s _ | c_defer_delete s _ | c_defer_unlock s _ => Some s
  | _ => None
  end.

(** A bound on the statements a call still has to run. *)
Definition remaining (p : callpc) : nat :=
  match p with
  | c_lock _ _ => 10 | c_check _ _ => 9 | c_alloc _ _ => 8 | c_send _ _ => 7
  | c_register _ => 6 | c_unlock _ => 5 | c_wait _ => 4 | c_fallthrough _ => 4
  | c_defer_lock _ _ => 3 | c_defer_delete _ _ => 2 | c_defer_unlock _ _ => 1
  | c_timeout_unlock => 1 | c_disc_unlock => 1 | c_return _ => 0
  end.

(** Envelopes as the message handler builds them. *)
Definition envelope_ok (v : RpcMessage) : Prop :=
  err v = None ∨ err v = Some (errors_New (Body (msg v))).

(** The three ways a call ends. *)
Inductive call_outcome : result → Prop :=
| outcome_delivered v :
    envelope_ok v → call_outcome (Ret (Some (Body (msg v))) (err v))
| outcome_disconnected : call_outcome (Ret None (Some ErrRpcClientIsDisconnected))
| outcome_timeout : call_outcome (Ret None (Some ErrRpcCallTimeout)).

Definition pc_ok (p : callpc) : Prop :=
  match p with
  | c_fallthrough _ => False
  | c_defer_lock _ r | c_defer_delete _ r | c_defer_unlock _ r | c_return r =>
      call_outcome r
  | _ => True
  end.

Definition goroutine_ok (g : goroutine) : Prop :=
  match g with
  | Caller _ p => pc_ok p
  | Handler (r_deliver _ v) => envelope_ok v
  | _ => True
  end.

Definition heap_ok (h : list chan) : Prop :=
  Forall (λ ch, Forall envelope_ok (buf ch)) h.

Definition outcome_inv (cfg : config) : Prop :=
  heap_ok (heap (client cfg)) ∧ Forall goroutine_ok (pool cfg).

(** The mutex is held by exactly the goroutine that stands between a
    [Lock] and its [Unlock]. *)
Definition mutex_inv (cfg : config) : Prop :=
  ∀ t g, pool cfg !! t = Some g → (holds_lock g = true ↔ mu (client cfg) = Some t).

Definition removed_inv (cfg : config) : Prop :=
  ∀ t timed s r, pool cfg !! t = Some (Caller timed (c_defer_unlock s r)) →
    sessionMap (client cfg) !! seq s = None.

(** Every ID of the list is greater than all IDs before it. *)
Definition ids_increase (ids : list Z) : Prop :=
  ∀ i j a b, ids !! i = Some a → ids !! j = Some b → i < j → (a < b)%Z.

(** No caller of the given variant is at the send hand-off or at the
    wait on its result channel while it holds the mutex. *)
Definition no_lock_at_suspension (timed : bool) (cfg : config) : Prop :=
  ∀ t p, pool cfg !! t = Some (Caller timed p) →
    at_send p = true ∨ at_wait p = true → mu (client cfg) ≠ Some t.

(** The sessions of the table, in the order of the [range] of line 180. *)
Definition sessions (c : RpcClient) : list rpcsession :=
  snd <$> map_to_list (sessionMap c).

Definition mark_closed (ch : chan) : chan :=
  {| buf := buf ch; cap := cap ch; closed := true |}.

Definition close_all (todo : list rpcsession) (h : list chan) : list chan :=
  foldl (λ h s, alter mark_closed (done s) h) h todo.

Definition is_open (h : list chan) (s : rpcsession) : bool :=
  match h !! done s with
  | Some ch => negb (closed ch)
  | None => false
  end.

(** The sessions of the table own distinct channels, none closed. *)
Definition table_open (c : RpcClient) : bool :=
  bool_decide (NoDup (done <$> sessions c)) && forallb (is_open (heap c)) (sessions c).

(** The part of the close callback between the [range] and the [Unlock]. *)
Definition draining (g : goroutine) : bool :=
  match g with
  | Closer (x_close _) | Closer x_reset | Closer (x_unlock _) => true
  | _ => false
  end.

Definition is_close_step (g : goroutine) : bool :=
  match g with Closer (x_close (_ :: _)) => true | _ => false end.

(** What a goroutine knows about the table and the channels at its
    program point. *)
Definition goroutine_table_ok (c : RpcClient) (g : goroutine) : Prop :=
  match g with
  | Caller _ (c_send s _) | Caller _ (c_register s) =>
      is_open (heap c) s = true
      ∧ ∀ id s', sessionMap c !! id = Some s' → done s' ≠ done s
  | Closer (x_close todo) =>
      NoDup (done <$> todo) ∧ forallb (is_open (heap c)) todo = true
  | Closer (x_unlock panicking) => panicking = false ∧ sessionMap c = ∅
  | Closer x_panic => False
  | _ => True
  end.

Definition table_inv (cfg : config) : Prop :=
  let c := client cfg in
  (∀ id s, sessionMap c !! id = Some s → done s < length (heap c))
  ∧ (∀ id1 id2 s1 s2, sessionMap c !! id1 = Some s1 → sessionMap c !! id2 = Some s2 →
       done s1 = done s2 → id1 = id2)
  ∧ (∀ id s, sessionMap c !! id = Some s →
       is_open (heap c) s = true ∨ ∃ t g, pool cfg !! t = Some g ∧ draining g = true)
  ∧ (∀ t g, pool cfg !! t = Some g → goroutine_table_ok c g).

(** ** Notions used in the further properties *)

(** Program points whose statement reads [running] or reads or writes
    [sessionMap]: the test of lines 44 / 69, the registration of lines
    51 / 77, the delete of lines 33-36, the look-up of lines 191 / 200,
    the [range] of line 180 and the reset of line 183. *)
Definition uses_shared (g : goroutine) : bool :=
  match g with
  | Caller _ (c_check _ _) | Caller _ (c_register _) | Caller _ (c_defer_delete _ _)
  | Handler (r_lookup _ _)
  | Closer x_range | Closer x_reset => true
  | _ => false
  end.

(** Program points of the handler on a reply, as opposed to the default
    branch of lines 208-215, which runs a handler registered with the
    engine. *)
Definition on_reply (p : routepc) : bool :=
  match p with r_default _ => false | _ => true end.

(** Program points whose statement is a [Lock]. *)
Definition wants_lock (g : goroutine) : bool :=
  match g with
  | Caller _ (c_lock _ _) | Caller _ (c_defer_lock _ _)
  | Handler (r_lock _ _) | Closer x_lock => true
  | _ => false
  end.

(** The session that the next call on [c] creates (lines 45-48, 70-73),
    and the client once that call has handed its frame over, registered
    and unlocked (lines 49-56, 74-86). *)
Definition new_session (c : RpcClient) : rpcsession :=
  {| seq := AddInt64 (sendSeq c) 1; done := length (heap c) |}.

Definition registered (cmd : Z) (data : list byte) (c : RpcClient) : RpcClient :=
  {| mu := None; running := running c; sendSeq := seq (new_session c);
     chSend := chSend c ++ [NewRpcMessage cmd (seq (new_session c)) data];
     sendQsize := sendQsize c;
     sessionMap := <[seq (new_session c) := new_session c]> (sessionMap c);
     heap := heap c ++ [make_chan 1] |}.

(** The session of a call that stands between its registration and the
    delete of its deferred [removeSession]. *)
Definition outstanding (p : callpc) : option rpcsession :=
  match p with
  | c_unlock s | c_wait s | c_fallthrough s
  | c_defer_lock s _ | c_defer_delete s _ => Some s
  | _ => None
  end.

(** Every entry of the table is stored under its own ID, and belongs to
    a call that is outstanding. *)
Definition keyed_inv (cfg : config) : Prop :=
  ∀ id s, sessionMap (client cfg) !! id = Some s → seq s = id.

Definition owner_inv (cfg : config) : Prop :=
  ∀ id s, sessionMap (client cfg) !! id = Some s →
    ∃ t timed p, pool cfg !! t = Some (Caller timed p) ∧ outstanding p = Some s.

(** The sessions a goroutine refers to at its program point: the local
    [session] of a call or of the handler, and what is left of the
    [range] of the close callback. *)
Definition holds_sessions (g : goroutine) : list rpcsession :=
  match g with
  | Caller _ p =>
      match p with
      | c_send s _ | c_register s | c_unlock s | c_wait s | c_fallthrough s
      | c_defer_lock s _ | c_defer_delete s _ | c_defer_unlock s _ => [s]
      | _ => []
      end
  | Handler p =>
      match p with
      | r_unlock _ _ (Some s) | r_deliver s _ => [s]
      | _ => []
      end
  | Closer p =>
      match p with x_close todo => todo | _ => [] end
  | Writer => []
  end.

(** The sessions that are referred to from the table or from a
    goroutine. *)
Definition live (cfg : config) (s : rpcsession) : Prop :=
  (∃ id, sessionMap (client cfg) !! id = Some s)
  ∨ ∃ t g, pool cfg !! t = Some g ∧ s ∈ holds_sessions g.

(** Every result channel is made with room for one envelope (lines 47,
    72) and holds at most one. *)
Definition chan_bounded (ch : chan) : Prop := cap ch = 1 ∧ length (buf ch) ≤ 1.

Definition bounded_inv (cfg : config) : Prop :=
  ∀ r ch, heap (client cfg) !! r = Some ch → chan_bounded ch.

Section Routing.
Context `{codes : CmdCodes}.

(** [v] is an envelope that the handler builds for session [s] (lines
    194, 203): from a frame with the session's ID and one of the two
    reply codes. *)
Definition from_handler (s : rpcsession) (v : RpcMessage) : Prop :=
  RpcSeq (msg v) = seq s
  ∧ ∃ k, Cmd (msg v) = reply_code k ∧ v = envelope k (msg v).

Definition handler_ok (g : goroutine) : Prop :=
  match g with
  | Handler (r_lock k m) | Handler (r_lookup k m) => Cmd m = reply_code k
  | Handler (r_unlock k m o) =>
      Cmd m = reply_code k ∧ ∀ s, o = Some s → seq s = RpcSeq m
  | Handler (r_deliver s v) => from_handler s v
  | _ => True
  end.

(** Live sessions refer to allocated channels; two live sessions with
    the same channel have the same ID; what is buffered in the channel of
    a live session was built by the handler for that session. *)
Definition routing_inv (cfg : config) : Prop :=
  (∀ s, live cfg s → done s < length (heap (client cfg)))
  ∧ (∀ s1 s2, live cfg s1 → live cfg s2 → done s1 = done s2 → seq s1 = seq s2)
  ∧ (∀ s ch v, live cfg s → heap (client cfg) !! done s = Some ch → v ∈ buf ch →
       from_handler s v)
  ∧ (∀ t g, pool cfg !! t = Some g → handler_ok g).

End Routing.

(** ** Sample data *)

(** Three distinct codes standing for the reserved ones. *)
Definition sample_codes : CmdCodes :=
  {| CmdPing := 16777216; CmdRpcMethod := 16777218; CmdRpcError := 16777219;
     ping_not_method := ltac:(done); ping_not_error := ltac:(done);
     method_not_error := ltac:(done) |}.

(** A codec that sends bytes as they are. *)
Definition raw_codec : ICodec (list byte) (list byte) :=
  {| Marshal := inl; Unmarshal := inl |}.

(** A connected client that has made no call yet, and the same client
    after the transport has stopped. *)
Definition fresh_client : RpcClient :=
  {| mu := None; running := true; sendSeq := 0; chSend := []; sendQsize := 2;
     sessionMap := ∅; heap := [] |}.

Definition stopped_client : RpcClient := set_running false fresh_client.

Definition session1 : rpcsession := {| seq := 1; done := 0 |}.
Definition session2 : rpcsession := {| seq := 2; done := 1 |}.

(** A client with two calls outstanding, IDs 1 and 2. *)
Definition busy_client : RpcClient :=
  {| mu := None; running := true; sendSeq := 2; chSend := []; sendQsize := 2;
     sessionMap := <[1%Z := session1]> (<[2%Z := session2]> ∅);
     heap := [make_chan 1; make_chan 1] |}.

(** An error reply to call 1, with body "boom", and a success reply to a
    call that is not outstanding. *)
Definition boom : list byte := [x62; x6f; x6f; x6d].
Definition error_reply : IMessage := NewRpcMessage 16777219 1 boom.
Definition late_reply : IMessage := NewRpcMessage 16777218 9 boom.

(** A plain call, a timed call, the handler of [error_reply], the close
    callback and the writer, none of which has run yet. *)
Definition sample_pool : list goroutine :=
  [callCmd 7 [x01]; callCmdWithTimeout 7 [x02]; HandleOnMessage error_reply;
   OnClose; Writer].

Definition start_cfg : config := {| client := fresh_client; pool := sample_pool |}.

(** The same goroutines on a client whose counter is two short of the
    largest [int64]. *)
Definition late_cfg : config :=
  {| client := set_sendSeq (max_int64 - 1) fresh_client; pool := sample_pool |}.

(** Goroutine 0 runs alone up to its wait (six statements). *)
Definition call0_to_wait : list (nat * bool) := replicate 6 (0, false).

(** Then the handler delivers the reply (five statements), and the call
    receives it and runs [removeSession] up to its [Unlock]. *)
Definition call0_to_defer_unlock : list (nat * bool) :=
  call0_to_wait ++ replicate 5 (2, false) ++ replicate 3 (0, false).

(** Goroutine 1 registers, then its timer fires during the wait. *)
Definition call1_times_out : list (nat * bool) :=
  replicate 6 (1, false) ++ [(1, true)] ++ replicate 3 (1, false).

(** Goroutine 0 up to its wait, then goroutine 1 up to its hand-off. *)
Definition two_allocations : list (nat * bool) :=
  replicate 6 (0, false) ++ replicate 3 (1, false).

(** Goroutine 1 registers, the handler delivers the reply, goroutine 1
    receives it and returns. *)
Definition call1_gets_reply : list (nat * bool) :=
  replicate 6 (1, false) ++ replicate 5 (2, false) ++ replicate 4 (1, false).

(** The close callback runs first (six statements on an empty table),
    then goroutine 1 calls. *)
Definition call1_after_close : list (nat * bool) :=
  replicate 6 (3, false) ++ replicate 3 (1, false).

(** Goroutines 0 and 1 both register and wait. *)
Definition both_waiting : list (nat * bool) :=
  replicate 6 (0, false) ++ replicate 6 (1, false).

(** The claim of the spec on the error reply: the waiting call returns
    the error and no payload. *)
Definition returns_error_without_payload (c : RpcClient) (frame : IMessage)
    (s : rpcsession) : Prop :=
  (run_caller 4 false 1 never (c_wait s)
     (run_router (codes := sample_codes) 5 0 (r_switch frame) c).2).1
  = c_return (Ret None (Some (errors_New (Body frame)))).

(** Goroutine 0 registers and waits, then the handler looks the session
    up and unlocks (four statements): it stands before its send. *)
Definition handler_at_delivery : list (nat * bool) :=
  call0_to_wait ++ replicate 4 (2, false).


(** Goroutines 0 and 1 wait; the close callback has locked, stopped and
    started to range over the table (three statements), respectively
    has run to its end (eight statements). *)
Definition close_in_progress : list (nat * bool) :=
  both_waiting ++ replicate 3 (3, false).

Definition close_finished : list (nat * bool) :=
  both_waiting ++ replicate 8 (3, false).

(** The sample goroutines on a client whose send queue is full: two
    keep-alive frames are queued, and the queue holds two. *)
Definition ping : IMessage := NewRpcMessage 16777216 0 [].

Definition full_cfg : config :=
  {| client := set_chSend [ping; ping] fresh_client; pool := sample_pool |}.

(** A call and two handlers of the same reply to it.  The call registers
    and waits, the first handler delivers (five statements), the second
    one looks the session up and unlocks (four statements): it stands
    before its send, and the channel holds the first reply. *)
Definition duplicate_cfg : config :=
  {| client := fresh_client;
     pool := [callCmd 7 [x01]; HandleOnMessage error_reply; HandleOnMessage error_reply] |}.

Definition duplicate_at_delivery : list (nat * bool) :=
  replicate 6 (0, false) ++ replicate 5 (1, false) ++ replicate 4 (2, false).

(** Case analysis on one step of a goroutine. *)
Ltac step_cases H :=
  simpl in H; repeat (case_match; simplify_eq; simpl in * );
  simplify_eq; simpl in *; simplify_eq; simpl in *.

(** The channel that an update of one channel of the heap leaves at a
    given reference. *)
Ltac use_insert Hins :=
  match goal with
  | H0 : heap _ !! ?r0 = Some _, Hr : <[?r0 := _]> (heap _) !! _ = Some _ |- _ =>
      destruct (Hins _ _ _ H0 Hr) as [[? ?]|?]; [subst|by eauto]
  end.

(** * Properties *)

Section Properties.
Context `{codes : CmdCodes}.

Lemma set_mu_release t c : mu c = None → set_mu None (set_mu (Some t) c) = c.
Proof. destruct c; simpl; intros ->; reflexivity. Qed.

(** ** Calls on a client that is not running *)

(** C3: a call of [callCmd] or [callCmdWithTimeout] made while [running]
    is false returns [ErrRpcClientIsDisconnected] after three statements
    (lock, test, unlock) and leaves the client exactly as it found it:
    [sendSeq], the send queue, the session table and the channels are the
    same, at the end and at every statement on the way.  Taken one by
    one, in whatever state the other goroutines have left the client:
    the test of a false [running] changes nothing, and the unlock that
    follows changes the mutex alone. *)
Theorem call_when_not_running (timed : bool) (t : nat) (fire : callpc → bool)
    (cmd : Z) (data : list byte) (c : RpcClient) :
  running c = false →
  mu c = None →
  run_caller 3 timed t fire (c_lock cmd data) c
    = (c_return (Ret None (Some ErrRpcClientIsDisconnected)), c)
  ∧ (∀ n, let c' := snd (run_caller n timed t fire (c_lock cmd data) c) in
          sendSeq c' = sendSeq c ∧ chSend c' = chSend c ∧
          sessionMap c' = sessionMap c ∧ heap c' = heap c)
  ∧ (∀ b c2, running c2 = false →
       caller_step timed t b (c_check cmd data) c2 = Some (c_disc_unlock, c2))
  ∧ (∀ b c3, caller_step timed t b c_disc_unlock c3
       = Some (c_return (Ret None (Some ErrRpcClientIsDisconnected)), set_mu None c3)).
Proof.
  intros Hrun Hmu.
  assert (Hthree : run_caller 3 timed t fire (c_lock cmd data) c
            = (c_return (Ret None (Some ErrRpcClientIsDisconnected)), c)).
  { simpl. rewrite Hmu. simpl. rewrite Hrun. simpl.
    by rewrite set_mu_release. }
  split; [exact Hthree|]. split; [|split].
  - intros [|[|[|n]]]; simpl; rewrite ?Hmu; simpl; rewrite ?Hrun; simpl; try done.
    destruct n; done.
  - intros b c2 Hc2. simpl. by rewrite Hc2.
  - done.
Qed.

(** ** The send hand-off of the timed call *)

(** C4: in [callCmdWithTimeout] on a running client, when the timer wins
    the [select] of the hand-off, the call returns [ErrRpcCallTimeout]
    after five statements; the session table and the send queue are the
    ones the call found, at the end and at every statement on the way,
    and the lock is free again. *)
Theorem send_timeout_registers_nothing (t : nat) (fire : callpc → bool)
    (cmd : Z) (data : list byte) (c : RpcClient) :
  running c = true →
  mu c = None →
  (∀ s m, fire (c_send s m) = true) →
  fst (run_caller 5 true t fire (c_lock cmd data) c)
    = c_return (Ret None (Some ErrRpcCallTimeout))
  ∧ mu (snd (run_caller 5 true t fire (c_lock cmd data) c)) = None
  ∧ ∀ n, let c' := snd (run_caller n true t fire (c_lock cmd data) c) in
         sessionMap c' = sessionMap c ∧ chSend c' = chSend c.
Proof.
  intros Hrun Hmu Hfire.
  assert (Hn : ∀ n, n ≤ 5 →
    let c' := snd (run_caller n true t fire (c_lock cmd data) c) in
    sessionMap c' = sessionMap c ∧ chSend c' = chSend c).
  { intros n Hle. do 6 (try destruct n as [|n]); try lia;
      simpl; rewrite ?Hmu; simpl; rewrite ?Hrun; simpl; rewrite ?Hfire; done. }
  split; [|split].
  - simpl. rewrite Hmu. simpl. rewrite Hrun. simpl. by rewrite Hfire.
  - simpl. rewrite Hmu. simpl. rewrite Hrun. simpl. by rewrite Hfire.
  - intros n. destruct (decide (n ≤ 5)) as [Hle|Hgt]; [by apply Hn|].
    replace n with (5 + (n - 5)) by lia.
    generalize (n - 5). intros k. specialize (Hn 5 (le_n _)).
    revert Hn. simpl. rewrite Hmu. simpl. rewrite Hrun. simpl. rewrite Hfire.
    simpl. by destruct k.
Qed.

(** ** The payload of a named-method call *)

Lemma byte_of_int_to_N n : Byte.to_N (byte_of_int n) = (N.of_nat n mod 256)%N.
Proof.
  unfold byte_of_int.
  destruct (Byte.of_N (N.of_nat n mod 256)) as [b|] eqn:Hb; simpl.
  - by apply Byte.to_of_N.
  - apply Byte.of_N_None_iff in Hb.
    pose proof (N.mod_upper_bound (N.of_nat n) 256). lia.
Qed.

Lemma copy_at_end (data method pad : list byte) :
  length pad = S (length method) →
  copy_at (data ++ pad) (length data) method = data ++ method ++ drop (length method) pad.
Proof.
  intros Hpad. unfold copy_at.
  rewrite length_app, Hpad.
  replace ((length data + S (length method) - length data) `min` length method)
    with (length method) by lia.
  rewrite take_app_length, firstn_all.
  by rewrite drop_app_add.
Qed.

Lemma append_method_layout data method :
  append_method data method = data ++ method ++ [byte_of_int (length method)].
Proof.
  unfold append_method.
  rewrite length_app, length_replicate.
  replace (length data + (length method + 1) - length method - 1) with (length data) by lia.
  rewrite copy_at_end by (rewrite length_replicate; lia).
  rewrite drop_replicate.
  replace (length method + 1 - length method) with 1 by lia. simpl.
  rewrite !length_app. simpl.
  replace (length data + (length method + 1) - 1) with (length data + (length method + 0)) by lia.
  rewrite insert_app_r, insert_app_r. done.
Qed.

(** C5: when the codec marshals the request to [data], [Call] starts
    [callCmdWithTimeout] under [CmdRpcMethod] with the payload [data],
    then the bytes of the method name, then one byte [byte(len(method))].
    That byte is the length modulo 256; it equals the length exactly for
    the names of at most 255 bytes, which is the cap on method names. *)
Theorem Call_payload {Req Rsp : Type} `{ICodec Req Rsp}
    (method : list byte) (req : Req) (data : list byte) :
  Marshal req = inl data →
  Call method req
    = inl (callCmdWithTimeout CmdRpcMethod
             (data ++ method ++ [byte_of_int (length method)]))
  ∧ Byte.to_N (byte_of_int (length method)) = (N.of_nat (length method) mod 256)%N
  ∧ (Byte.to_nat (byte_of_int (length method)) = length method ↔ length method ≤ 255).
Proof.
  intros Hm. split; [|split].
  - unfold Call. rewrite Hm. by rewrite append_method_layout.
  - apply byte_of_int_to_N.
  - rewrite Byte.to_nat_via_N, byte_of_int_to_N. split.
    + intros Heq. pose proof (N.mod_upper_bound (N.of_nat (length method)) 256). lia.
    + intros Hle. rewrite N.mod_small by lia. lia.
Qed.

(** ** Absent correlation IDs *)

Lemma removeSession_absent id (m : gmap Z rpcsession) :
  m !! id = None → removeSession_body id m = m.
Proof.
  intros Hid. unfold removeSession_body. rewrite delete_id by done.
  case_decide as Hsz; [|done]. symmetry. by apply map_size_empty_inv.
Qed.

Lemma removeSession_lookup id (m : gmap Z rpcsession) :
  removeSession_body id m !! id = None.
Proof.
  unfold removeSession_body. case_decide; [apply lookup_empty|apply lookup_delete_eq].
Qed.

Lemma router_switch_reply t k frame c :
  Cmd frame = reply_code k →
  router_step t (r_switch frame) c = Some (r_lock k frame, c).
Proof.
  intros Hk. simpl. rewrite Hk.
  pose proof ping_not_method. pose proof ping_not_error. pose proof method_not_error.
  destruct k; simpl; repeat case_decide; congruence.
Qed.

(** C8: for an ID that is not in the session table, [removeSession]
    leaves the table as it is and returns normally with the client
    unchanged, and removing twice is the same as removing once; a reply
    frame (success or error code) carrying that ID takes the handler to
    its end through the log statement of line 196 / 205 -- it never
    panics and never delivers -- and leaves the table, the channels and
    the send queue as they were. *)
Theorem absent_id_is_tolerated (c : RpcClient) (id : Z) :
  mu c = None →
  sessionMap c !! id = None →
  removeSession_body id (sessionMap c) = sessionMap c
  ∧ (∀ m, removeSession_body id (removeSession_body id m) = removeSession_body id m)
  ∧ (∀ timed t fire s r, seq s = id →
       run_caller 3 timed t fire (c_defer_lock s r) c = (c_return r, c))
  ∧ (∀ t k frame, RpcSeq frame = id → Cmd frame = reply_code k →
       run_router 5 t (r_switch frame) c = (r_done, c)
       ∧ ∀ n, let st := run_router n t (r_switch frame) c in
              st.1 ≠ r_panic ∧ (∀ s v, st.1 ≠ r_deliver s v) ∧
              sessionMap st.2 = sessionMap c ∧ heap st.2 = heap c ∧
              chSend st.2 = chSend c).
Proof.
  intros Hmu Habs. split; [|split; [|split]].
  - by apply removeSession_absent.
  - intros m. apply removeSession_absent, removeSession_lookup.
  - intros timed t fire s r <-. simpl. rewrite Hmu. simpl.
    rewrite removeSession_absent by done.
    destruct c; simpl in *; by subst.
  - intros t k frame <- Hk.
    assert (Hrun : ∀ n, n ≤ 5 →
      let st := run_router n t (r_switch frame) c in
      st.1 ≠ r_panic ∧ (∀ s v, st.1 ≠ r_deliver s v) ∧
      sessionMap st.2 = sessionMap c ∧ heap st.2 = heap c ∧ chSend st.2 = chSend c).
    { intros n Hn. do 6 (try destruct n as [|n]); try lia;
        cbn [run_router]; rewrite ?(router_switch_reply t k) by done;
        simpl; rewrite ?Hmu; simpl; rewrite ?Habs; done. }
    assert (Hfive : run_router 5 t (r_switch frame) c = (r_done, c)).
    { cbn [run_router]. rewrite (router_switch_reply t k) by done.
      simpl. rewrite Hmu. simpl. rewrite Habs. by rewrite set_mu_release. }
    split; [done|]. intros n.
    destruct (decide (n ≤ 5)) as [Hle|Hgt]; [by apply Hrun|].
    replace n with (5 + (n - 5)) by lia. generalize (n - 5). intros j.
    specialize (Hrun 5 (le_n _)). revert Hrun. rewrite Hfive.
    change (run_router (5 + j) t (r_switch frame) c)
      with (match router_step t (r_switch frame) c with
            | Some (p', c') => run_router (4 + j) t p' c' | None => (r_switch frame, c) end).
    rewrite (router_switch_reply t k) by done.
    simpl. rewrite Hmu. simpl. rewrite Habs. rewrite set_mu_release by done.
    by destruct j.
Qed.

(** ** Error replies *)

(** C2, as the code has it: for a frame with the code [CmdRpcError] whose
    sequence number is in the table, with the session's channel empty and
    open, the handler puts on that channel the envelope made of the frame
    itself and of [errors.New(string(body))], and ends; the call that
    waits on the channel then returns the body of the frame as payload
    together with that error. *)
Theorem remote_error_reaches_caller (t : nat) (frame : IMessage) (s : rpcsession)
    (ch : chan) (c : RpcClient) :
  Cmd frame = CmdRpcError →
  mu c = None →
  sessionMap c !! RpcSeq frame = Some s →
  heap c !! done s = Some ch →
  buf ch = [] → closed ch = false → cap ch = 1 →
  let reply := {| msg := frame; err := Some (errors_New (Body frame)) |} in
  let c1 := set_heap (<[done s := {| buf := [reply]; cap := 1; closed := false |}]> (heap c)) c in
  run_router 5 t (r_switch frame) c = (r_done, c1)
  ∧ ∀ timed u fire, fire (c_wait s) = false →
      (run_caller 4 timed u fire (c_wait s) c1).1
        = c_return (Ret (Some (Body frame)) (Some (errors_New (Body frame)))).
Proof.
  intros Hcmd Hmu Hs Hch Hbuf Hopen Hcap reply c1. split.
  - cbn [run_router]. rewrite (router_switch_reply t reply_error) by done.
    simpl. rewrite Hmu. simpl. rewrite Hs. simpl. rewrite Hch.
    unfold chan_send. rewrite Hopen, Hbuf, Hcap. simpl.
    unfold c1. f_equal. destruct c; simpl in *; by subst.
  - intros timed u fire Hfire. cbn [run_caller]. rewrite Hfire.
    simpl. rewrite andb_false_r.
    rewrite list_lookup_insert_eq by (by eapply lookup_lt_Some).
    simpl. by rewrite Hmu.
Qed.

(** [CallCmd], [CallCmdWithTimeout] and [Call] hand on the error alone:
    the payload that comes with it is dropped (lines 112-114). *)
Lemma decode_reply_error {Req Rsp : Type} `{ICodec Req Rsp}
    (payload : option (list byte)) (e : error) :
  decode_reply (Ret payload (Some e)) = (None, Some e).
Proof. reflexivity. Qed.

(** ** The close callback *)

Lemma chan_close_open ch : closed ch = false → chan_close ch = Some (mark_closed ch).
Proof. unfold chan_close. by intros ->. Qed.

Lemma close_all_lookup todo : ∀ h i,
  close_all todo h !! i
    = (if bool_decide (i ∈ done <$> todo) then mark_closed <$> h !! i else h !! i).
Proof.
  induction todo as [|s todo IH]; intros h i; [done|].
  cbn [close_all foldl]. fold (close_all todo (alter mark_closed (done s) h)).
  rewrite IH, fmap_cons.
  destruct (decide (i = done s)) as [->|Hne].
  - rewrite list_lookup_alter_eq.
    rewrite (bool_decide_eq_true_2 (done s ∈ done s :: _)) by apply list_elem_of_here.
    case_bool_decide; [|done].
    destruct (h !! done s) as [ch|]; [|done]. done.
  - rewrite list_lookup_alter_ne by done.
    rewrite (bool_decide_ext (i ∈ done s :: (done <$> todo)) (i ∈ done <$> todo)); [done|].
    rewrite elem_of_cons. split; [intros [?|?]; [congruence|done] | by right].
Qed.

Lemma closer_loop t todo : ∀ k c,
  NoDup (done <$> todo) →
  forallb (is_open (heap c)) todo = true →
  run_closer (length todo + S k) t (x_close todo) c
    = run_closer k t x_reset (set_heap (close_all todo (heap c)) c).
Proof.
  induction todo as [|s todo IH]; intros k c Hnd Hopen.
  - simpl. by destruct c.
  - rewrite fmap_cons in Hnd. apply NoDup_cons in Hnd as [Hs Hnd].
    simpl in Hopen. apply andb_prop in Hopen as [Hhd Htl].
    unfold is_open in Hhd.
    destruct (heap c !! done s) as [ch|] eqn:Hch; [|done].
    apply negb_true_iff in Hhd.
    change (length (s :: todo) + S k) with (S (length todo + S k)).
    cbn [run_closer closer_step]. rewrite Hch, chan_close_open by done.
    rewrite IH; [| done |].
    + f_equal. simpl. unfold set_heap; simpl. f_equal.
      f_equal. apply list_eq. intros i.
      destruct (decide (i = done s)) as [->|Hne].
      * rewrite list_lookup_alter_eq, list_lookup_insert_eq by (by eapply lookup_lt_Some).
        by rewrite Hch.
      * by rewrite list_lookup_alter_ne, list_lookup_insert_ne.
    + simpl. apply forallb_forall. intros s' Hin.
      apply (proj1 (forallb_forall _ _) Htl) in Hin as Hop.
      unfold is_open in *.
      rewrite list_lookup_insert_ne; [done|].
      intros Heq. apply Hs. rewrite Heq. apply list_elem_of_fmap_2.
      by apply list_elem_of_In.
Qed.

Lemma sessions_lookup c id s : sessionMap c !! id = Some s → s ∈ sessions c.
Proof.
  intros Hs. unfold sessions. apply list_elem_of_fmap. exists (id, s).
  split; [done|]. by apply elem_of_map_to_list.
Qed.

(** The callback holds the mutex wherever it stands between its [Lock]
    and its deferred [Unlock]. *)
Lemma closer_holds_lock t n : ∀ p c,
  (holds_lock (Closer p) = true → mu c = Some t) →
  let st := run_closer n t p c in
  holds_lock (Closer st.1) = true → mu st.2 = Some t.
Proof.
  induction n as [|n IH]; intros p c Hp; [done|].
  cbn [run_closer].
  destruct (closer_step t p c) as [[p' c']|] eqn:Hstep; [|done].
  apply IH. intros Hp'.
  destruct p as [| | |[|s todo]| | | |]; simpl in Hstep;
    repeat (case_match; simplify_eq); simplify_eq; simpl in *; try done; eauto.
Qed.

(** The callback run alone, from a state with the mutex free and a table
    whose sessions own distinct open channels. *)
Lemma close_callback_run (t : nat) (c : RpcClient) :
  mu c = None →
  table_open c = true →
  let n := length (sessions c) + 6 in
  let c' := (run_closer n t x_lock c).2 in
  (run_closer n t x_lock c).1 = x_done
  ∧ (∀ k, let st := run_closer k t x_lock c in
          holds_lock (Closer st.1) = true → mu st.2 = Some t)
  ∧ mu c' = None ∧ running c' = false ∧ sessionMap c' = ∅
  ∧ (∀ i, heap c' !! i
          = if bool_decide (i ∈ done <$> sessions c)
            then mark_closed <$> heap c !! i else heap c !! i)
  ∧ (∀ id s ch timed u fire r,
       sessionMap c !! id = Some s → heap c !! done s = Some ch → buf ch = [] →
       fire (c_wait s) = false →
       (run_caller 4 timed u fire (c_wait s) c').1
         = c_return (Ret None (Some ErrRpcClientIsDisconnected))
       ∧ caller_step timed u (fire (c_return r)) (c_return r) c' = None).
Proof.
  intros Hmu Hopen n c'.
  unfold table_open in Hopen. apply andb_prop in Hopen as [Hnd Hopen].
  apply bool_decide_eq_true_1 in Hnd.
  assert (Hrun : run_closer n t x_lock c
            = (x_done, set_mu None (set_sessionMap ∅
                 (set_heap (close_all (sessions c) (heap c))
                    (set_running false (set_mu (Some t) c)))))).
  { unfold n. replace (length (sessions c) + 6) with (S (S (S (length (sessions c) + 3)))) by lia.
    cbn [run_closer closer_step]. rewrite Hmu. cbn [run_closer closer_step].
    change (snd <$> map_to_list (sessionMap (set_running false (set_mu (Some t) c))))
      with (sessions c).
    rewrite closer_loop by done. done. }
  subst c'. rewrite Hrun. simpl.
  split; [done|]. split.
  { intros k. apply closer_holds_lock. done. }
  do 3 (split; [done|]). split.
  { intros i. apply close_all_lookup. }
  intros id s ch timed u fire r Hs Hch Hbuf Hfire. split; [|done].
  cbn [run_caller]. rewrite Hfire. simpl. rewrite andb_false_r.
  rewrite close_all_lookup.
  rewrite bool_decide_eq_true_2
    by (apply list_elem_of_fmap_2; by eapply sessions_lookup).
  rewrite Hch. simpl. unfold chan_recv. simpl. rewrite Hbuf. done.
Qed.

(** ** Executions of the goroutine pool *)

Lemma exec_inv t fire cfg cfg' :
  exec t fire cfg = Some cfg' →
  ∃ g g', pool cfg !! t = Some g ∧
          goroutine_step t fire g (client cfg) = Some (g', client cfg') ∧
          pool cfg' = <[t := g']> (pool cfg).
Proof.
  unfold exec. intros Hex.
  destruct (pool cfg !! t) as [g|] eqn:Hg; [|done].
  destruct (goroutine_step t fire g (client cfg)) as [[g' c']|] eqn:Hstep; [|done].
  simplify_eq. by exists g, g'.
Qed.

Lemma pool_after t g g' (l : list goroutine) u gu :
  l !! t = Some g → <[t := g']> l !! u = Some gu →
  (u = t ∧ gu = g') ∨ (u ≠ t ∧ l !! u = Some gu).
Proof.
  intros Ht Hu. destruct (decide (u = t)) as [->|Hne].
  - rewrite list_lookup_insert_eq in Hu by (by eapply lookup_lt_Some).
    left. by simplify_eq.
  - rewrite list_lookup_insert_ne in Hu by done. by right.
Qed.

Lemma reachable_initial cfg : initial cfg → reachable cfg.
Proof. intros Hi. exists cfg, []. split; [done|constructor]. Qed.

Lemma reachable_step t fire cfg cfg' :
  reachable cfg → exec t fire cfg = Some cfg' → reachable cfg'.
Proof.
  intros (cfg0 & ids & Hi & Hex) Hstep. exists cfg0, (ids ++ allocated t cfg cfg').
  split; [done|]. by econstructor.
Qed.

Lemma reachable_invariant (P : config → Prop) :
  (∀ cfg, initial cfg → P cfg) →
  (∀ t fire cfg cfg', P cfg → exec t fire cfg = Some cfg' → P cfg') →
  ∀ cfg, reachable cfg → P cfg.
Proof.
  intros Hinit Hstep cfg (cfg0 & ids & Hi & Hex).
  induction Hex as [|ids cfg t fire cfg' _ IH Hs]; [by apply Hinit|].
  by eapply Hstep.
Qed.

Lemma run_schedule_execution cfg0 sched : ∀ ids cfg ids' cfg',
  execution cfg0 ids cfg →
  run_schedule sched ids cfg = Some (ids', cfg') →
  execution cfg0 ids' cfg'.
Proof.
  induction sched as [|[t fire] sched IH]; intros ids cfg ids' cfg' Hex Hrun.
  - simpl in Hrun. by simplify_eq.
  - simpl in Hrun. destruct (exec t fire cfg) as [cfg1|] eqn:Hstep; [|done].
    eapply IH; [|exact Hrun]. by econstructor.
Qed.

Lemma run_schedule_reachable sched cfg0 ids cfg :
  initial cfg0 → run_schedule sched [] cfg0 = Some (ids, cfg) → reachable cfg.
Proof.
  intros Hi Hrun. exists cfg0, ids. split; [done|].
  eapply run_schedule_execution; [constructor|exact Hrun].
Qed.

Lemma after_reachable sched cfg0 :
  initial cfg0 → run_schedule sched [] cfg0 ≠ None → reachable (after sched cfg0).
Proof.
  intros Hi Hrun. unfold after.
  destruct (run_schedule sched [] cfg0) as [[ids cfg]|] eqn:Hs; [|done].
  by eapply run_schedule_reachable.
Qed.

Lemma after_execution sched cfg0 ids cfg :
  run_schedule sched [] cfg0 = Some (ids, cfg) → execution cfg0 ids (after sched cfg0).
Proof.
  intros Hrun. unfold after. rewrite Hrun.
  eapply run_schedule_execution; [constructor|exact Hrun].
Qed.

(** *** Mutual exclusion *)

Lemma lock_step_cases t fire g c g' c' :
  goroutine_step t fire g c = Some (g', c') →
  (holds_lock g = false ∧ holds_lock g' = true ∧ mu c = None ∧ mu c' = Some t)
  ∨ (holds_lock g = true ∧ holds_lock g' = false ∧ mu c' = None)
  ∨ (holds_lock g' = holds_lock g ∧ mu c' = mu c).
Proof.
  intros Hstep.
  destruct g as [timed p|p|p|]; [destruct p|destruct p|destruct p|];
    step_cases Hstep; auto.
Qed.

Lemma started_not_holding g : started g = true → holds_lock g = false.
Proof. destruct g as [timed p|p|p|]; [destruct p|destruct p|destruct p|]; done. Qed.

Lemma mutex_invariant cfg : reachable cfg → mutex_inv cfg.
Proof.
  apply reachable_invariant; clear cfg.
  - intros cfg (Hmu & _ & _ & Hst) t g Hg.
    rewrite Hmu.
    assert (started g = true) as Hsg.
    { apply (proj1 (forallb_forall _ _) Hst). apply list_elem_of_In.
      by eapply list_elem_of_lookup_2. }
    rewrite (started_not_holding g Hsg). split; done.
  - intros t fire cfg cfg' Hinv Hex u gu Hu.
    apply exec_inv in Hex as (g & g' & Hg & Hstep & Hpool).
    rewrite Hpool in Hu.
    pose proof (Hinv t g Hg) as Ht.
    destruct (pool_after _ _ _ _ _ _ Hg Hu) as [[-> ->]|[Hne Hu']].
    + destruct (lock_step_cases _ _ _ _ _ _ Hstep)
        as [(? & ? & ? & ?)|[(? & ? & ?)|(Hh & Hm)]].
      * split; done.
      * split; congruence.
      * rewrite Hh, Hm. done.
    + pose proof (Hinv u gu Hu') as Huinv.
      destruct (lock_step_cases _ _ _ _ _ _ Hstep)
        as [(? & ? & Hn & Hs)|[(Hh & ? & Hn)|(Hh & Hm)]].
      * rewrite Hs. rewrite Hn in Huinv. split; [|congruence].
        intros Hhu. apply Huinv in Hhu. done.
      * rewrite Hn. split; [|done]. intros Hhu.
        apply Huinv in Hhu. apply Ht in Hh. congruence.
      * by rewrite Hm.
Qed.


(** C9, as the code has it: in every reachable configuration, a caller
    that stands at the send hand-off (line 50, respectively the [select]
    of line 75) holds the mutex, and a caller that stands at the wait on
    its result channel (line 58, respectively 88) does not. *)
Theorem lock_at_suspension_points (cfg : config) (t : nat) (timed : bool) (p : callpc) :
  reachable cfg →
  pool cfg !! t = Some (Caller timed p) →
  (at_send p = true → mu (client cfg) = Some t)
  ∧ (at_wait p = true → mu (client cfg) ≠ Some t).
Proof.
  intros Hr Hp. pose proof (mutex_invariant cfg Hr t _ Hp) as Hm. split.
  - intros Hs. apply Hm. by destruct p.
  - intros Hw Hmu. apply Hm in Hmu. by destruct p.
Qed.

(** *** Removal before return *)

Lemma table_written_under_lock t fire g c g' c' :
  goroutine_step t fire g c = Some (g', c') →
  holds_lock g = false → sessionMap c' = sessionMap c.
Proof.
  intros Hstep Hh.
  destruct g as [timed p|p|p|]; [destruct p|destruct p|destruct p|];
    step_cases Hstep; done.
Qed.

Lemma enters_defer_unlock t fire g c timed s r c' :
  goroutine_step t fire g c = Some (Caller timed (c_defer_unlock s r), c') →
  sessionMap c' !! seq s = None.
Proof.
  intros Hstep.
  destruct g as [timed' p|p|p|]; [destruct p|destruct p|destruct p|];
    step_cases Hstep; apply removeSession_lookup.
Qed.

Lemma removed_invariant cfg : reachable cfg → removed_inv cfg.
Proof.
  intros Hr. 
  cut (reachable cfg ∧ removed_inv cfg); [by intros []|].
  revert cfg Hr. apply reachable_invariant.
  - intros cfg Hi. split; [by apply reachable_initial|].
    intros t timed s r Hg. destruct Hi as (_ & _ & _ & Hst).
    assert (started (Caller timed (c_defer_unlock s r)) = true); [|done].
    apply (proj1 (forallb_forall _ _) Hst). apply list_elem_of_In.
    by eapply list_elem_of_lookup_2.
  - intros t fire cfg cfg' [Hr Hinv] Hex.
    split; [by eapply reachable_step|].
    intros u timed s r Hu.
    pose proof (mutex_invariant cfg Hr) as Hmx.
    apply exec_inv in Hex as (g & g' & Hg & Hstep & Hpool).
    rewrite Hpool in Hu.
    destruct (pool_after _ _ _ _ _ _ Hg Hu) as [[-> <-]|[Hne Hu']].
    + by eapply enters_defer_unlock.
    + rewrite (table_written_under_lock _ _ _ _ _ _ Hstep); [by eapply Hinv|].
      destruct (holds_lock g) eqn:Hh; [|done].
      apply (Hmx t g Hg) in Hh. 
      assert (mu (client cfg) = Some u) by (by apply (Hmx u _ Hu')).
      congruence.
Qed.

Lemma session_kept timed t fire p c p' c' s :
  caller_step timed t fire p c = Some (p', c') →
  session_of p = Some s →
  session_of p' = Some s ∨ ∃ r, p = c_defer_unlock s r ∧ p' = c_return r.
Proof.
  intros Hstep Hs. destruct p; simpl in Hs; simplify_eq;
    step_cases Hstep; eauto.
Qed.

(** C6: in every reachable configuration, when a call that has
    registered its session takes the step by which it returns, that step
    is the [Unlock] of the deferred [removeSession], whatever result is
    returned, and the table of the configuration it returns in has no
    entry under the session's ID. *)
Theorem session_removed_before_return (cfg cfg' : config) (t : nat) (fire timed : bool)
    (p : callpc) (s : rpcsession) (r : result) :
  reachable cfg →
  exec t fire cfg = Some cfg' →
  pool cfg !! t = Some (Caller timed p) →
  session_of p = Some s →
  pool cfg' !! t = Some (Caller timed (c_return r)) →
  p = c_defer_unlock s r ∧ sessionMap (client cfg') !! seq s = None.
Proof.
  intros Hr Hex Hp Hs Hp'.
  pose proof (removed_invariant cfg Hr) as Hinv.
  apply exec_inv in Hex as (g & g' & Hg & Hstep & Hpool).
  rewrite Hp in Hg. simplify_eq.
  rewrite Hpool, list_lookup_insert_eq in Hp' by (by eapply lookup_lt_Some).
  simplify_eq. simpl in Hstep.
  destruct (caller_step timed t fire p (client cfg)) as [[p' c']|] eqn:Hc; [|done].
  simpl in Hstep. simplify_eq.
  destruct (session_kept _ _ _ _ _ _ _ _ Hc Hs) as [?|(r' & -> & ?)]; [done|].
  simplify_eq. split; [done|].
  simpl in Hc. simplify_eq. rewrite <- Hc. simpl. by eapply Hinv.
Qed.


(** *** Outcomes of a call *)

Lemma heap_ok_insert h i ch :
  heap_ok h → Forall envelope_ok (buf ch) → heap_ok (<[i := ch]> h).
Proof. intros Hh Hch. by apply Forall_insert. Qed.

Lemma heap_ok_lookup h i ch :
  heap_ok h → h !! i = Some ch → Forall envelope_ok (buf ch).
Proof. intros Hh Hi. by apply (Forall_lookup_1 _ _ _ _ Hh Hi). Qed.

Lemma envelope_is_ok k frame : envelope_ok (envelope k frame).
Proof. destruct k; [by left|by right]. Qed.

Lemma chan_recv_ok ch v ch' :
  chan_recv ch = Received v ch' → Forall envelope_ok (buf ch) →
  envelope_ok v ∧ Forall envelope_ok (buf ch').
Proof.
  unfold chan_recv. destruct (buf ch) as [|w rest]; [by destruct (closed ch)|].
  intros [= <- <-] Hb. by apply Forall_cons in Hb.
Qed.

Lemma chan_send_ok v ch ch' :
  chan_send v ch = Sent ch' → envelope_ok v → Forall envelope_ok (buf ch) →
  Forall envelope_ok (buf ch').
Proof.
  unfold chan_send. destruct (closed ch); [done|].
  destruct (length (buf ch) <? cap ch); [|done].
  intros [= <-] Hv Hb. simpl. apply Forall_app. split; [done|]. by apply Forall_singleton.
Qed.

Lemma chan_close_buf ch ch' : chan_close ch = Some ch' → buf ch' = buf ch.
Proof. unfold chan_close. destruct (closed ch); [done|]. by intros [= <-]. Qed.

Lemma goroutine_step_ok t fire g c g' c' :
  goroutine_step t fire g c = Some (g', c') →
  heap_ok (heap c) → goroutine_ok g →
  heap_ok (heap c') ∧ goroutine_ok g'.
Proof.
  intros Hstep Hh Hg.
  destruct g as [timed p|p|p|]; [destruct p|destruct p|destruct p|];
    step_cases Hstep; try (split; [done|]; try done; by constructor);
    try match goal with H : heap c !! _ = Some ?ch |- _ =>
      pose proof (heap_ok_lookup _ _ _ Hh H) as Hb end.
  - split; [|done]. apply Forall_app. split; [done|]. by repeat constructor.
  - match goal with H : chan_recv _ = _ |- _ =>
      destruct (chan_recv_ok _ _ _ H Hb) as [Hv Hrest] end.
    split; [by apply heap_ok_insert|by constructor].
  - split; [done|]. apply envelope_is_ok.
  - split; [|done]. apply heap_ok_insert; [done|].
    match goal with H : chan_send _ _ = _ |- _ =>
      by apply (chan_send_ok _ _ _ H) end.
  - split; [|done]. apply heap_ok_insert; [done|].
    match goal with H : chan_close _ = _ |- _ =>
      by rewrite (chan_close_buf _ _ H) end.
Qed.

Lemma started_ok g : started g = true → goroutine_ok g.
Proof. destruct g as [timed p|p|p|]; [destruct p|destruct p|destruct p|]; done. Qed.

Lemma outcome_invariant cfg : reachable cfg → outcome_inv cfg.
Proof.
  apply reachable_invariant; clear cfg.
  - intros cfg (_ & _ & Hheap & Hst). split.
    + rewrite Hheap. constructor.
    + apply Forall_forall. intros g Hg. apply started_ok.
      apply (proj1 (forallb_forall _ _) Hst). by apply list_elem_of_In.
  - intros t fire cfg cfg' [Hh Hp] Hex.
    apply exec_inv in Hex as (g & g' & Hg & Hstep & Hpool).
    destruct (goroutine_step_ok _ _ _ _ _ _ Hstep Hh) as [Hh' Hg'].
    { by apply (Forall_lookup_1 _ _ _ _ Hp Hg). }
    split; [done|]. rewrite Hpool. by apply Forall_insert.
Qed.

Lemma call_outcome_not_client_error r x :
  call_outcome r → r ≠ Ret x (Some ErrRpcCallClientError).
Proof.
  intros Ho Heq. destruct Ho as [v [Hv|Hv]| |]; simplify_eq.
Qed.

Lemma timed_step_enabled t p c :
  (∃ r, p = c_return r)
  ∨ (∃ p' c', caller_step true t true p c = Some (p', c') ∧ remaining p' < remaining p)
  ∨ (at_lock p = true ∧ mu c ≠ None).
Proof.
  destruct p; simpl; eauto 6; try (right; left; do 2 eexists; split; [done|simpl; lia]).
  - destruct (mu c) eqn:Hmu; [by right; right|].
    right; left. do 2 eexists. split; [done|]. simpl; lia.
  - right; left. destruct (running c); do 2 eexists; (split; [done|simpl; lia]).
  - destruct (mu c) eqn:Hmu; [by right; right|].
    right; left. do 2 eexists. split; [done|]. simpl; lia.
Qed.

(** C10: in every reachable configuration a goroutine running
    [callCmdWithTimeout] is never at the fall-through of line 97; if it
    has returned, the result is a delivered envelope's body and error,
    or [ErrRpcClientIsDisconnected], or [ErrRpcCallTimeout], and never
    [ErrRpcCallClientError]; and if it has not returned, either it can
    run its next statement once its timer has fired, getting strictly
    closer to its return, or it is at a [Lock] while another goroutine
    holds the mutex. *)
Theorem timed_call_outcomes (cfg : config) (t : nat) (p : callpc) :
  reachable cfg →
  pool cfg !! t = Some (Caller true p) →
  (∀ s, p ≠ c_fallthrough s)
  ∧ (∀ r, p = c_return r →
          call_outcome r ∧ ∀ x, r ≠ Ret x (Some ErrRpcCallClientError))
  ∧ ((∃ r, p = c_return r)
     ∨ (∃ p' c', caller_step true t true p (client cfg) = Some (p', c')
                 ∧ remaining p' < remaining p)
     ∨ (at_lock p = true ∧ ∃ u, u ≠ t ∧ mu (client cfg) = Some u)).
Proof.
  intros Hr Hp.
  destruct (outcome_invariant cfg Hr) as [_ Hpool].
  pose proof (Forall_lookup_1 _ _ _ _ Hpool Hp) as Hok. simpl in Hok.
  split; [|split].
  - intros s ->. done.
  - intros r ->. simpl in Hok. split; [done|].
    intros x. by apply call_outcome_not_client_error.
  - destruct (timed_step_enabled t p (client cfg)) as [?|[?|[Hl Hmu]]]; auto.
    right; right. split; [done|].
    destruct (mu (client cfg)) as [u|] eqn:Hu; [|done].
    exists u. split; [|done]. intros ->.
    apply (mutex_invariant cfg Hr t _ Hp) in Hu. by destruct p.
Qed.

(** *** Correlation IDs *)

Lemma wrap_int64_id z : (min_int64 ≤ z ≤ max_int64)%Z → wrap_int64 z = z.
Proof.
  unfold min_int64, max_int64, wrap_int64. intros Hz.
  rewrite Z.mod_small by lia. lia.
Qed.

Lemma allocated_cases t fire cfg cfg' :
  exec t fire cfg = Some cfg' →
  (allocated t cfg cfg' = [] ∧ sendSeq (client cfg') = sendSeq (client cfg))
  ∨ (allocated t cfg cfg' = [AddInt64 (sendSeq (client cfg)) 1]
     ∧ sendSeq (client cfg') = AddInt64 (sendSeq (client cfg)) 1).
Proof.
  intros Hex. apply exec_inv in Hex as (g & g' & Hg & Hstep & Hpool).
  unfold allocated. rewrite Hg, Hpool.
  rewrite list_lookup_insert_eq by (by eapply lookup_lt_Some).
  revert Hstep. generalize (client cfg'). intros c' Hstep.
  destruct g as [timed p|p|p|]; [destruct p|destruct p|destruct p|];
    step_cases Hstep; auto.
Qed.

(** C1, as the code has it: along any execution that starts with the
    counter at an [int64] value and allocates no more IDs than remain
    below the largest [int64], the k-th allocated ID is the starting
    counter plus k; hence every ID is greater than all IDs allocated
    before it, and the counter ends at the last one. *)
Theorem correlation_ids_increase (cfg0 cfg : config) (ids : list Z) :
  execution cfg0 ids cfg →
  (min_int64 ≤ sendSeq (client cfg0))%Z →
  (sendSeq (client cfg0) + Z.of_nat (length ids) ≤ max_int64)%Z →
  sendSeq (client cfg) = (sendSeq (client cfg0) + Z.of_nat (length ids))%Z
  ∧ (∀ i a, ids !! i = Some a → a = (sendSeq (client cfg0) + Z.of_nat i + 1)%Z)
  ∧ ids_increase ids.
Proof.
  intros Hex Hmin.
  assert (Hmain : (sendSeq (client cfg0) + Z.of_nat (length ids) ≤ max_int64)%Z →
    sendSeq (client cfg) = (sendSeq (client cfg0) + Z.of_nat (length ids))%Z
    ∧ (∀ i a, ids !! i = Some a → a = (sendSeq (client cfg0) + Z.of_nat i + 1)%Z)).
  { induction Hex as [|ids cfg t fire cfg' Hex IH Hstep].
    - intros _. split; [simpl; lia|]. intros i a Hi. done.
    - rewrite length_app. intros Hmax.
      destruct IH as [IHs IHi]; [lia|].
      destruct (allocated_cases _ _ _ _ Hstep) as [[Hal Hs]|[Hal Hs]];
        rewrite Hal in *; cbn [length] in *.
      + rewrite app_nil_r, Hs, IHs. split; [lia|done].
      + rewrite Hs, IHs. unfold AddInt64.
        rewrite wrap_int64_id by lia.
        split; [lia|].
        intros i a Hi. apply lookup_app_Some in Hi as [Hi|[Hge Hi]]; [by apply IHi|].
        apply list_lookup_singleton_Some in Hi as [Hi <-]. lia. }
  intros Hmax. destruct (Hmain Hmax) as [Hs Hi].
  split; [done|]. split; [done|].
  intros i j a b Ha Hb Hij. apply Hi in Ha, Hb. lia.
Qed.

(** *** The table and its channels *)

Lemma heap_grows t fire g c g' c' :
  goroutine_step t fire g c = Some (g', c') → length (heap c) ≤ length (heap c').
Proof.
  intros Hstep.
  destruct g as [timed p|p|p|]; [destruct p|destruct p|destruct p|];
    step_cases Hstep; rewrite ?length_app, ?length_insert; simpl; lia.
Qed.

Lemma chan_recv_closed ch v ch' : chan_recv ch = Received v ch' → closed ch' = closed ch.
Proof.
  unfold chan_recv. destruct (buf ch); [by destruct (closed ch)|]. by intros [= _ <-].
Qed.

Lemma chan_send_closed v ch ch' : chan_send v ch = Sent ch' → closed ch' = closed ch.
Proof.
  unfold chan_send. destruct (closed ch) eqn:Hc; [done|].
  destruct (length (buf ch) <? cap ch); [|done]. by intros [= <-].
Qed.

Lemma insert_keeps_flag (h : list chan) r0 ch0 ch0' r ch :
  h !! r0 = Some ch0 → closed ch0' = closed ch0 → h !! r = Some ch →
  ∃ ch', <[r0 := ch0']> h !! r = Some ch' ∧ closed ch' = closed ch.
Proof.
  intros H0 Hc Hr. destruct (decide (r = r0)) as [->|Hne].
  - rewrite list_lookup_insert_eq by (by eapply lookup_lt_Some).
    exists ch0'. split; [done|]. congruence.
  - rewrite list_lookup_insert_ne by done. eauto.
Qed.

Lemma flags_kept t fire g c g' c' :
  goroutine_step t fire g c = Some (g', c') → is_close_step g = false →
  ∀ r ch, heap c !! r = Some ch → ∃ ch', heap c' !! r = Some ch' ∧ closed ch' = closed ch.
Proof.
  intros Hstep Hg r ch Hr.
  destruct g as [timed p|p|p|]; [destruct p|destruct p|destruct p|];
    step_cases Hstep; eauto.
  - exists ch. split; [|done]. by apply lookup_app_l_Some.
  - eapply insert_keeps_flag; eauto using chan_recv_closed.
  - eapply insert_keeps_flag; eauto using chan_send_closed.
Qed.

Lemma open_kept t fire g c g' c' s :
  goroutine_step t fire g c = Some (g', c') → is_close_step g = false →
  is_open (heap c) s = true → is_open (heap c') s = true.
Proof.
  intros Hstep Hg. unfold is_open.
  destruct (heap c !! done s) as [ch|] eqn:Hch; [|done].
  destruct (flags_kept _ _ _ _ _ _ Hstep Hg _ _ Hch) as (ch' & -> & ->). done.
Qed.


Lemma removeSession_lookup_Some id (m : gmap Z rpcsession) k s :
  removeSession_body id m !! k = Some s → m !! k = Some s.
Proof.
  unfold removeSession_body. case_decide; [by rewrite lookup_empty|].
  intros Hk. by apply lookup_delete_Some in Hk as [_ Hk].
Qed.

Lemma table_cases t fire g c g' c' :
  goroutine_step t fire g c = Some (g', c') →
  sessionMap c' = sessionMap c
  ∨ (∃ timed s, g = Caller timed (c_register s) ∧
                sessionMap c' = <[seq s := s]> (sessionMap c))
  ∨ (∃ timed s r, g = Caller timed (c_defer_delete s r) ∧
                  sessionMap c' = removeSession_body (seq s) (sessionMap c))
  ∨ (g = Closer x_reset ∧ sessionMap c' = ∅).
Proof.
  intros Hstep.
  destruct g as [timed p|p|p|]; [destruct p|destruct p|destruct p|];
    step_cases Hstep; eauto 8.
Qed.

(** An entry of the table after a step was there before, unless the step
    is the registration that inserts it. *)
Lemma entry_origin t fire g c g' c' id s :
  goroutine_step t fire g c = Some (g', c') →
  sessionMap c' !! id = Some s →
  sessionMap c !! id = Some s ∨ ∃ timed, g = Caller timed (c_register s) ∧ id = seq s.
Proof.
  intros Hstep Hs.
  destruct (table_cases _ _ _ _ _ _ Hstep)
    as [Heq|[(timed & s0 & -> & Heq)|[(timed & s0 & r & -> & Heq)|[-> Heq]]]];
    rewrite Heq in Hs.
  - by left.
  - destruct (decide (seq s0 = id)) as [<-|Hne].
    + rewrite lookup_insert_eq in Hs. simplify_eq. right. by exists timed.
    + rewrite lookup_insert_ne in Hs by done. by left.
  - left. by eapply removeSession_lookup_Some.
  - by rewrite lookup_empty in Hs.
Qed.

Lemma draining_holds g : draining g = true → holds_lock g = true.
Proof. destruct g as [timed p|p|p|]; [destruct p|destruct p|destruct p|]; done. Qed.

Lemma close_step_holds g : is_close_step g = true → holds_lock g = true.
Proof.
  destruct g as [timed p|p|p|]; [destruct p|destruct p|destruct p as [| | |[|]| | | |]|];
    done.
Qed.

(** A goroutine other than the one that steps keeps what it knows. *)
Lemma other_table_ok t fire g c g' c' gu :
  goroutine_step t fire g c = Some (g', c') →
  (holds_lock gu = true → holds_lock g = false) →
  goroutine_table_ok c gu → goroutine_table_ok c' gu.
Proof.
  intros Hstep Hex Hok.
  destruct (holds_lock gu) eqn:Hgu.
  - specialize (Hex eq_refl).
    pose proof (table_written_under_lock _ _ _ _ _ _ Hstep Hex) as Htab.
    assert (is_close_step g = false) as Hnc.
    { destruct (is_close_step g) eqn:Hc; [|done].
      apply close_step_holds in Hc. congruence. }
    pose proof (λ s, open_kept _ _ _ _ _ _ s Hstep Hnc) as Hopen.
    destruct gu as [timed p|p|p|]; [destruct p|destruct p|destruct p|];
      simpl in *; rewrite ?Htab; try done.
    + destruct Hok as [Ho Hfresh]. split; [by apply Hopen|done].
    + destruct Hok as [Ho Hfresh]. split; [by apply Hopen|done].
    + destruct Hok as [Hnd Ho]. split; [done|].
      apply forallb_forall. intros s Hs. apply Hopen.
      by apply (proj1 (forallb_forall _ _) Ho).
  - destruct gu as [timed p|p|p|]; [destruct p|destruct p|destruct p|];
      simpl in *; done.
Qed.


Lemma sessions_elem c s : s ∈ sessions c → ∃ id, sessionMap c !! id = Some s.
Proof.
  unfold sessions. intros Hs. apply list_elem_of_fmap in Hs as ([id s'] & -> & Hin).
  exists id. by apply elem_of_map_to_list.
Qed.

Lemma sessions_NoDup c :
  (∀ id1 id2 s1 s2, sessionMap c !! id1 = Some s1 → sessionMap c !! id2 = Some s2 →
     done s1 = done s2 → id1 = id2) →
  NoDup (done <$> sessions c).
Proof.
  intros Hinj. unfold sessions. rewrite <- list_fmap_compose.
  apply NoDup_fmap_2_strong; [|apply NoDup_map_to_list].
  intros [id1 s1] [id2 s2] H1 H2 Heq. simpl in Heq.
  apply elem_of_map_to_list in H1, H2.
  assert (id1 = id2) as -> by eauto. congruence.
Qed.

(** The goroutine that steps knows at its new program point what the
    invariant says there. *)
Lemma own_table_ok t fire g c g' c' :
  goroutine_step t fire g c = Some (g', c') →
  (∀ id s, sessionMap c !! id = Some s → done s < length (heap c)) →
  (∀ id1 id2 s1 s2, sessionMap c !! id1 = Some s1 → sessionMap c !! id2 = Some s2 →
     done s1 = done s2 → id1 = id2) →
  (holds_lock g = true → draining g = false →
     ∀ id s, sessionMap c !! id = Some s → is_open (heap c) s = true) →
  goroutine_table_ok c g →
  goroutine_table_ok c' g'.
Proof.
  intros Hstep HA HB Hopen Hok.
  destruct g as [timed p|p|p|];
    [destruct p|destruct p|destruct p as [| | |[|s todo]| |panicking| |]|];
    step_cases Hstep; try done.
  - (* allocation *)
    split.
    + unfold is_open. simpl. by rewrite lookup_app_r, Nat.sub_diag by lia.
    + intros id s' Hs'. apply HA in Hs'. simpl. lia.
  - (* the range *)
    split; [by apply sessions_NoDup|].
    apply forallb_forall. intros s Hs. apply list_elem_of_In in Hs.
    apply sessions_elem in Hs as [id Hs]. by eapply Hopen.
  - (* close(session.done) *)
    destruct Hok as [Hnd Ho]. rewrite ?fmap_cons in Hnd.
    apply NoDup_cons in Hnd as [Hs Hnd]. apply andb_prop in Ho as [_ Ho].
    split; [done|]. apply forallb_forall. intros s' Hs'.
    apply (proj1 (forallb_forall _ _) Ho) in Hs' as Ho'.
    unfold is_open in *. rewrite list_lookup_insert_ne; [done|].
    intros Heq. apply Hs. rewrite Heq. apply list_elem_of_fmap_2.
    by apply list_elem_of_In.
  - (* close of a closed channel *)
    destruct Hok as [_ Ho]. apply andb_prop in Ho as [Ho _].
    unfold is_open in Ho.
    match goal with H : heap _ !! _ = Some ?ch |- _ => rewrite H in Ho end.
    unfold chan_close in *. destruct (closed _); done.
  - (* the deferred unlock *)
    by destruct Hok as [? _].
Qed.


Lemma close_step_drains t fire g c g' c' :
  goroutine_step t fire g c = Some (g', c') → is_close_step g = true → draining g' = true.
Proof.
  intros Hstep Hg.
  destruct g as [timed p|p|p|]; [destruct p|destruct p|destruct p|];
    step_cases Hstep; done.
Qed.

Lemma leaves_draining t fire g c g' c' :
  goroutine_step t fire g c = Some (g', c') → draining g = true → draining g' = false →
  ∃ panicking, g = Closer (x_unlock panicking).
Proof.
  intros Hstep Hg Hg'.
  destruct g as [timed p|p|p|]; [destruct p|destruct p|destruct p|];
    step_cases Hstep; eauto; done.
Qed.

Lemma started_table_ok c g : started g = true → goroutine_table_ok c g.
Proof. destruct g as [timed p|p|p|]; [destruct p|destruct p|destruct p|]; done. Qed.

Lemma table_invariant cfg : reachable cfg → table_inv cfg.
Proof.
  intros Hr. cut (reachable cfg ∧ table_inv cfg); [by intros []|].
  revert cfg Hr. apply reachable_invariant.
  - intros cfg Hi. split; [by apply reachable_initial|].
    destruct Hi as (_ & Htab & _ & Hst). unfold table_inv. rewrite Htab.
    split; [|split; [|split]]; try (intros *; by rewrite lookup_empty).
    intros t g Hg. apply started_table_ok.
    apply (proj1 (forallb_forall _ _) Hst). apply list_elem_of_In.
    by eapply list_elem_of_lookup_2.
  - intros t fire cfg cfg' [Hr (HA & HB & HE & HG)] Hex.
    split; [by eapply reachable_step|].
    pose proof (mutex_invariant cfg Hr) as Hmx.
    apply exec_inv in Hex as (g & g' & Hg & Hstep & Hpool).
    assert (Ht' : pool cfg' !! t = Some g').
    { rewrite Hpool. apply list_lookup_insert_eq. by eapply lookup_lt_Some. }
    assert (Hothers : ∀ u gu, u ≠ t → pool cfg !! u = Some gu →
              holds_lock gu = true → holds_lock g = false).
    { intros u gu Hne Hu Hgu. destruct (holds_lock g) eqn:Hh; [|done].
      apply (Hmx u gu Hu) in Hgu. apply (Hmx t g Hg) in Hh. congruence. }
    assert (Hopen : holds_lock g = true → draining g = false →
              ∀ id s, sessionMap (client cfg) !! id = Some s →
                      is_open (heap (client cfg)) s = true).
    { intros Hh Hd id s Hs. destruct (HE id s Hs) as [?|(u & gu & Hu & Hdu)]; [done|].
      destruct (decide (u = t)) as [->|Hne]; [congruence|].
      apply draining_holds in Hdu. pose proof (Hothers u gu Hne Hu Hdu). congruence. }
    pose proof (HG t g Hg) as Hgok.
    unfold table_inv. split; [|split; [|split]].
    + intros id s Hs. pose proof (heap_grows _ _ _ _ _ _ Hstep) as Hlen.
      destruct (entry_origin _ _ _ _ _ _ _ _ Hstep Hs) as [Hold|(timed & -> & _)].
      * apply HA in Hold. lia.
      * destruct Hgok as [Ho _]. unfold is_open in Ho.
        destruct (heap (client cfg) !! done s) eqn:Hl; [|done].
        apply lookup_lt_Some in Hl. lia.
    + intros id1 id2 s1 s2 H1 H2 Heq.
      destruct (entry_origin _ _ _ _ _ _ _ _ Hstep H1) as [Ho1|(timed1 & -> & ->)];
        destruct (entry_origin _ _ _ _ _ _ _ _ Hstep H2) as [Ho2|(timed2 & Hg2 & ->)].
      * by eapply HB.
      * subst g. destruct Hgok as [_ Hfresh]. by apply Hfresh in Ho1.
      * destruct Hgok as [_ Hfresh]. apply Hfresh in Ho2. congruence.
      * by simplify_eq.
    + intros id s Hs.
      destruct (draining g') eqn:Hd'; [right; eauto|].
      assert (is_close_step g = false) as Hnc.
      { destruct (is_close_step g) eqn:Hc; [|done].
        pose proof (close_step_drains _ _ _ _ _ _ Hstep Hc). congruence. }
      destruct (entry_origin _ _ _ _ _ _ _ _ Hstep Hs) as [Hold|(timed & -> & _)].
      * destruct (HE id s Hold) as [Ho|(u & gu & Hu & Hdu)].
        -- left. by eapply open_kept.
        -- destruct (decide (u = t)) as [->|Hne].
           ++ rewrite Hg in Hu. simplify_eq.
              destruct (leaves_draining _ _ _ _ _ _ Hstep Hdu Hd') as [b ->].
              destruct Hgok as [_ Hemp]. rewrite Hemp in Hold.
              by rewrite lookup_empty in Hold.
           ++ right. exists u, gu. split; [|done].
              rewrite Hpool. by rewrite list_lookup_insert_ne.
      * left. destruct Hgok as [Ho _]. by eapply open_kept.
    + intros u gu' Hu. rewrite Hpool in Hu.
      destruct (pool_after _ _ _ _ _ _ Hg Hu) as [[-> ->]|[Hne Hu']].
      * by eapply own_table_ok.
      * eapply other_table_ok; [exact Hstep| |by eapply HG]. by eapply Hothers.
Qed.

(** Whenever the mutex is free, the sessions of the table own distinct
    channels, none of them closed. *)
Lemma table_open_when_unlocked cfg :
  reachable cfg → mu (client cfg) = None → table_open (client cfg) = true.
Proof.
  intros Hr Hmu. destruct (table_invariant cfg Hr) as (_ & HB & HE & _).
  pose proof (mutex_invariant cfg Hr) as Hmx.
  unfold table_open. apply andb_true_intro. split.
  - apply bool_decide_eq_true_2. by apply sessions_NoDup.
  - apply forallb_forall. intros s Hs. apply list_elem_of_In in Hs.
    apply sessions_elem in Hs as [id Hs].
    destruct (HE id s Hs) as [?|(u & gu & Hu & Hdu)]; [done|].
    apply draining_holds in Hdu. apply (Hmx u gu Hu) in Hdu. congruence.
Qed.

(** C7: in every reachable configuration in which the mutex is free, the
    close callback run by goroutine [t] takes the mutex and runs to its
    end; it holds the mutex at every statement between its [Lock] and
    its [Unlock]; afterwards the mutex is free, [running] is false, the
    table is empty, and the channel of every session that was in the
    table is closed with its buffer untouched (nothing was sent), all
    other channels being as before.  A call that was waiting on such a
    channel with nothing delivered then returns
    [ErrRpcClientIsDisconnected], and a call that has returned takes no
    further step. *)
Theorem close_wakes_waiters (cfg : config) (t : nat) :
  reachable cfg →
  mu (client cfg) = None →
  let c := client cfg in
  let n := length (sessions c) + 6 in
  let c' := (run_closer n t x_lock c).2 in
  (run_closer n t x_lock c).1 = x_done
  ∧ (∀ k, let st := run_closer k t x_lock c in
          holds_lock (Closer st.1) = true → mu st.2 = Some t)
  ∧ mu c' = None ∧ running c' = false ∧ sessionMap c' = ∅
  ∧ (∀ i, heap c' !! i
          = if bool_decide (i ∈ done <$> sessions c)
            then mark_closed <$> heap c !! i else heap c !! i)
  ∧ (∀ id s ch timed u fire r,
       sessionMap c !! id = Some s → heap c !! done s = Some ch → buf ch = [] →
       fire (c_wait s) = false →
       (run_caller 4 timed u fire (c_wait s) c').1
         = c_return (Ret None (Some ErrRpcClientIsDisconnected))
       ∧ caller_step timed u (fire (c_return r)) (c_return r) c' = None).
Proof.
  intros Hr Hmu. apply close_callback_run; [done|].
  by apply table_open_when_unlocked.
Qed.

End Properties.

(** * Further properties *)

Section Further.
Context `{codes : CmdCodes}.

(** ** The session table *)

Lemma removeSession_delete (id : Z) (m : gmap Z rpcsession) :
  removeSession_body id m = delete id m.
Proof.
  unfold removeSession_body. case_decide as Hsz; [|done].
  symmetry. by apply map_size_empty_inv.
Qed.

(** X1: the body of [removeSession] is the delete of one key: the
    replacement of an emptied table by a fresh map (lines 34-36) is not
    observable.  Every other key keeps its entry, and removing the key
    that a registration has just added restores the table. *)
Theorem removeSession_is_delete (id : Z) (m : gmap Z rpcsession) :
  removeSession_body id m = delete id m
  ∧ (∀ k, removeSession_body id m !! k = if decide (k = id) then None else m !! k)
  ∧ (∀ s, m !! id = None → removeSession_body id (<[id := s]> m) = m).
Proof.
  split; [apply removeSession_delete|]. split.
  - intros k. rewrite removeSession_delete. case_decide as Hk.
    + subst. apply lookup_delete_eq.
    + by apply lookup_delete_ne.
  - intros s Hid. rewrite removeSession_delete, delete_insert_eq. by apply delete_id.
Qed.

(** ** The named-method adapter *)

Lemma byte_of_int_inj n n' :
  n ≤ 255 → n' ≤ 255 → byte_of_int n = byte_of_int n' → n = n'.
Proof.
  intros Hn Hn' Heq. apply (f_equal Byte.to_N) in Heq.
  rewrite !byte_of_int_to_N in Heq. rewrite !N.mod_small in Heq by lia. lia.
Qed.

(** X2: for method names of at most 255 bytes the payload that [Call]
    builds determines the request bytes and the name.  With a name of
    256 bytes the length byte wraps to 0, and the payload is the one of
    the empty name on the request bytes followed by the name. *)
Theorem method_encoding_unambiguous (data method data' method' : list byte) :
  length method ≤ 255 →
  length method' ≤ 255 →
  (append_method data method = append_method data' method' →
     data = data' ∧ method = method')
  ∧ (∀ long, length long = 256 →
       append_method data long = append_method (data ++ long) []).
Proof.
  intros Hl Hl'. split.
  - rewrite !append_method_layout, !app_assoc. intros Heq.
    apply app_inj_tail in Heq as [Heq Hb].
    apply byte_of_int_inj in Hb; [|done..].
    by apply app_inj_2 in Heq.
  - intros long Hlong. rewrite !append_method_layout, Hlong. simpl.
    by rewrite <- app_assoc.
Qed.

(** ** One call, run alone *)

Lemma run_caller_registers (timed : bool) (t : nat) (fire : callpc → bool)
    (cmd : Z) (data : list byte) (c : RpcClient) :
  running c = true →
  mu c = None →
  length (chSend c) < sendQsize c →
  (∀ s m, fire (c_send s m) = false) →
  run_caller 6 timed t fire (c_lock cmd data) c
    = (c_wait (new_session c), registered cmd data c).
Proof.
  intros Hrun Hmu Hroom Hfire. simpl. rewrite Hmu. simpl. rewrite Hrun. simpl.
  rewrite Hfire, andb_false_r. simpl.
  rewrite (proj2 (Nat.ltb_lt _ _) Hroom). simpl.
  reflexivity.
Qed.

(** X3: a call and its reply, end to end.  On a running client with a
    free mutex and room in the send queue, [CallCmd] (and
    [CallCmdWithTimeout], when no timer fires) marshals the request,
    queues one frame with the next correlation ID and waits; when the
    handler has run on a reply with that ID, the call returns (with a
    non-nil [rsp]): on [CmdRpcMethod] what the codec makes of the body,
    on [CmdRpcError] the body as an error, undecoded.  Afterwards the table is as before the
    call and the mutex is free. *)
Theorem call_round_trip {Req Rsp : Type} `{ICodec Req Rsp}
    (timed : bool) (t u : nat) (fire : callpc → bool) (k : reply)
    (body : list byte) (cmd : Z) (req : Req) (data : list byte) (c : RpcClient) :
  Marshal req = inl data →
  running c = true →
  mu c = None →
  length (chSend c) < sendQsize c →
  (∀ p, fire p = false) →
  sessionMap c !! AddInt64 (sendSeq c) 1 = None →
  let s := new_session c in
  let frame := NewRpcMessage (reply_code k) (seq s) body in
  let c1 := (run_caller 6 timed t fire (c_lock cmd data) c).2 in
  let c2 := (run_router 5 u (r_switch frame) c1).2 in
  let st := run_caller 4 timed t fire (c_wait s) c2 in
  (if timed then CallCmdWithTimeout cmd req else CallCmd cmd req)
    = inl (Caller timed (c_lock cmd data))
  ∧ chSend c1 = chSend c ++ [NewRpcMessage cmd (AddInt64 (sendSeq c) 1) data]
  ∧ (∃ r, st.1 = c_return r
          ∧ decode_reply r
            = match k with
              | reply_ok =>
                  match Unmarshal body with
                  | inl v => (Some v, None)
                  | inr e => (None, Some e)
                  end
              | reply_error => (None, Some (errors_New body))
              end)
  ∧ sessionMap st.2 = sessionMap c
  ∧ mu st.2 = None.
Proof.
  intros Hreq Hrun Hmu Hroom Hfire Hfresh s frame c1 c2 st.
  assert (Hc1 : c1 = registered cmd data c).
  { unfold c1. by rewrite run_caller_registers. }
  assert (Hc2 : c2 = set_heap (heap c ++ [{| buf := [envelope k frame]; cap := 1;
                                            closed := false |}]) c1).
  { unfold c2. cbn [run_router]. rewrite (router_switch_reply u k) by done.
    rewrite Hc1. simpl. rewrite lookup_insert_eq. simpl.
    rewrite lookup_app_r, Nat.sub_diag by lia. simpl.
    rewrite insert_app_r_alt, Nat.sub_diag by lia. reflexivity. }
  split.
  { unfold CallCmdWithTimeout, CallCmd. rewrite Hreq. by destruct timed. }
  split; [by rewrite Hc1|].
  unfold st. rewrite Hc2, Hc1. cbn [run_caller]. rewrite !Hfire. simpl.
  rewrite andb_false_r. rewrite lookup_app_r, Nat.sub_diag by lia. simpl.
  split; [|split; [|reflexivity]].
  - eexists. split; [reflexivity|]. by destruct k.
  - rewrite removeSession_delete, delete_insert_eq. by apply delete_id.
Qed.

(** X4: a timed call whose timer fires during the wait returns
    [ErrRpcCallTimeout] with its session removed from the table; the
    handler then drops a reply with the call's ID: it runs to its end and
    leaves the client as it is. *)
Theorem late_reply_is_dropped (t u : nat) (cmd : Z) (data : list byte) (c : RpcClient) :
  running c = true →
  mu c = None →
  length (chSend c) < sendQsize c →
  let s := new_session c in
  let st := run_caller 10 true t at_wait (c_lock cmd data) c in
  st.1 = c_return (Ret None (Some ErrRpcCallTimeout))
  ∧ sessionMap st.2 = delete (seq s) (sessionMap c)
  ∧ ∀ k frame, RpcSeq frame = seq s → Cmd frame = reply_code k →
      run_router 5 u (r_switch frame) st.2 = (r_done, st.2).
Proof.
  intros Hrun Hmu Hroom s st.
  assert (Hst : st = (c_return (Ret None (Some ErrRpcCallTimeout)),
                      set_sessionMap (delete (seq s) (sessionMap c))
                        (registered cmd data c))).
  { unfold st.
    simpl. rewrite Hmu. simpl. rewrite Hrun. simpl.
    rewrite (proj2 (Nat.ltb_lt _ _) Hroom). simpl.
    rewrite removeSession_delete, delete_insert_eq.
    reflexivity. }
  rewrite Hst. split; [reflexivity|]. split; [reflexivity|].
  intros k frame Hseq Hk. cbn [run_router snd].
  rewrite (router_switch_reply u k) by done.
  simpl. rewrite Hseq. rewrite lookup_delete_eq. reflexivity.
Qed.

(** X5: a timed call whose timer fires at the send hand-off has used up
    a correlation ID and a channel although it sent nothing: the next
    call on the client gets the ID after the next. *)
Theorem handoff_timeout_consumes_id (t : nat) (fire : callpc → bool)
    (cmd : Z) (data : list byte) (c : RpcClient) :
  running c = true →
  mu c = None →
  (∀ s m, fire (c_send s m) = true) →
  let c' := (run_caller 5 true t fire (c_lock cmd data) c).2 in
  sendSeq c' = AddInt64 (sendSeq c) 1
  ∧ heap c' = heap c ++ [make_chan 1]
  ∧ ∀ fire' cmd' data', (∀ s m, fire' (c_send s m) = false) →
      length (chSend c) < sendQsize c →
      (run_caller 6 false t fire' (c_lock cmd' data') c').1
        = c_wait {| seq := AddInt64 (AddInt64 (sendSeq c) 1) 1;
                    done := S (length (heap c)) |}.
Proof.
  intros Hrun Hmu Hfire c'.
  assert (Hc' : c' = set_mu None (set_heap (heap c ++ [make_chan 1])
                       (set_sendSeq (AddInt64 (sendSeq c) 1) c))).
  { unfold c'. simpl. rewrite Hmu. simpl. rewrite Hrun. simpl. by rewrite Hfire. }
  rewrite Hc'. split; [done|]. split; [done|].
  intros fire' cmd' data' Hfire' Hroom.
  rewrite run_caller_registers by done.
  unfold new_session. simpl. rewrite length_app. simpl. by rewrite Nat.add_1_r.
Qed.

(** ** The mutex *)

(** X6: in every reachable configuration at most one goroutine stands
    between a [Lock] and its [Unlock]. *)
Theorem mutual_exclusion (cfg : config) (t u : nat) (g h : goroutine) :
  reachable cfg →
  pool cfg !! t = Some g →
  pool cfg !! u = Some h →
  holds_lock g = true →
  holds_lock h = true →
  t = u.
Proof.
  intros Hr Hg Hh Hlg Hlh. pose proof (mutex_invariant cfg Hr) as Hmx.
  apply (Hmx t g Hg) in Hlg. apply (Hmx u h Hh) in Hlh. congruence.
Qed.

Lemma uses_shared_holds g : uses_shared g = true → holds_lock g = true.
Proof. destruct g as [timed p|p|p|]; [destruct p|destruct p|destruct p|]; done. Qed.

(** X7: the session table is read and written, and the running flag is
    read, under the mutex only: a goroutine whose next statement uses
    one of them is the holder of the mutex, and so is a goroutine whose
    step changes the table. *)
Theorem shared_state_under_lock (cfg : config) (t : nat) (g : goroutine) :
  reachable cfg →
  pool cfg !! t = Some g →
  (uses_shared g = true → mu (client cfg) = Some t)
  ∧ ∀ fire cfg', exec t fire cfg = Some cfg' →
      sessionMap (client cfg') ≠ sessionMap (client cfg) →
      mu (client cfg) = Some t.
Proof.
  intros Hr Hg. pose proof (mutex_invariant cfg Hr t g Hg) as Hmx. split.
  - intros Hu. by apply Hmx, uses_shared_holds.
  - intros fire cfg' Hex Hch.
    apply exec_inv in Hex as (g0 & g' & Hg0 & Hstep & _).
    rewrite Hg in Hg0. simplify_eq.
    destruct (holds_lock g0) eqn:Hh; [by apply Hmx|].
    by rewrite (table_written_under_lock _ _ _ _ _ _ Hstep Hh) in Hch.
Qed.

Lemma wants_lock_blocked t fire g c :
  wants_lock g = true → mu c ≠ None → goroutine_step t fire g c = None.
Proof.
  intros Hw Hmu.
  destruct g as [timed p|p|p|]; [destruct p|destruct p|destruct p|];
    simpl in *; try done; by destruct (mu c).
Qed.

(** X8: a call that stands at the send hand-off with the send queue full
    cannot step unless its timer fires, and it holds the mutex: every
    goroutine that is about to lock (another call, a [removeSession], the
    handler of a reply, the close callback) is blocked with it.  The
    writer can step, and its step makes room. *)
Theorem full_queue_blocks_lock_users (cfg : config) (t : nat) (timed : bool)
    (s : rpcsession) (m : IMessage) :
  reachable cfg →
  pool cfg !! t = Some (Caller timed (c_send s m)) →
  sendQsize (client cfg) ≤ length (chSend (client cfg)) →
  exec t false cfg = None
  ∧ mu (client cfg) = Some t
  ∧ (∀ u g fire, pool cfg !! u = Some g → wants_lock g = true → exec u fire cfg = None)
  ∧ (∀ w fire, pool cfg !! w = Some Writer → chSend (client cfg) ≠ [] →
       ∃ cfg', exec w fire cfg = Some cfg'
               ∧ S (length (chSend (client cfg'))) = length (chSend (client cfg))).
Proof.
  intros Hr Hp Hfull.
  assert (Hmu : mu (client cfg) = Some t).
  { by apply (mutex_invariant cfg Hr t _ Hp). }
  split; [|split; [done|split]].
  - unfold exec. rewrite Hp. simpl. rewrite andb_false_r.
    by rewrite (proj2 (Nat.ltb_ge _ _) Hfull).
  - intros u g fire Hg Hw. unfold exec. rewrite Hg.
    rewrite wants_lock_blocked; [done|done|]. by rewrite Hmu.
  - intros w fire Hw Hq. unfold exec. rewrite Hw. simpl.
    destruct (chSend (client cfg)) as [|x q] eqn:Hc; [done|].
    eexists. split; [done|]. done.
Qed.

(** ** Closed channels *)

Lemma chan_recv_shrinks ch v ch' :
  chan_recv ch = Received v ch' →
  closed ch' = closed ch ∧ length (buf ch') ≤ length (buf ch).
Proof.
  unfold chan_recv. destruct (buf ch) eqn:Hb; [by destruct (closed ch)|].
  intros [= _ <-]. simpl. split; [done|lia].
Qed.

Lemma chan_send_needs_open v ch ch' : chan_send v ch = Sent ch' → closed ch = false.
Proof. unfold chan_send. by destruct (closed ch). Qed.

Lemma chan_close_needs_open ch ch' : chan_close ch = Some ch' → closed ch = false.
Proof. unfold chan_close. by destruct (closed ch). Qed.

Lemma closed_step t fire g c g' c' r ch :
  goroutine_step t fire g c = Some (g', c') →
  heap c !! r = Some ch → closed ch = true →
  ∃ ch', heap c' !! r = Some ch' ∧ closed ch' = true
         ∧ length (buf ch') ≤ length (buf ch).
Proof.
  intros Hstep Hr Hc.
  assert (Hins : ∀ r0 ch0 ch0', heap c !! r0 = Some ch0 →
            (ch0 = ch → closed ch0' = true ∧ length (buf ch0') ≤ length (buf ch)) →
            ∃ ch', <[r0 := ch0']> (heap c) !! r = Some ch' ∧ closed ch' = true
                   ∧ length (buf ch') ≤ length (buf ch)).
  { intros r0 ch0 ch0' H0 Hsame. destruct (decide (r0 = r)) as [->|Hne].
    - rewrite list_lookup_insert_eq by (by eapply lookup_lt_Some).
      exists ch0'. split; [done|]. apply Hsame. congruence.
    - rewrite list_lookup_insert_ne by done. exists ch. done. }
  destruct g as [timed p|p|p|]; [destruct p|destruct p|destruct p|];
    step_cases Hstep; eauto.
  - exists ch. split; [by apply lookup_app_l_Some|done].
  - eapply Hins; [done|]. intros ->.
    match goal with H : chan_recv _ = _ |- _ =>
      apply chan_recv_shrinks in H as [Hcl Hlen] end.
    split; [congruence|done].
  - eapply Hins; [done|]. intros ->.
    match goal with H : chan_send _ _ = _ |- _ => apply chan_send_needs_open in H end.
    congruence.
  - eapply Hins; [done|]. intros ->.
    match goal with H : chan_close _ = _ |- _ => apply chan_close_needs_open in H end.
    congruence.
Qed.

(** X9: a session channel that is closed stays closed along every
    execution, and nothing is added to it: no statement of the client
    reopens a channel or delivers into a closed one. *)
Theorem closed_channel_is_final (cfg0 cfg : config) (ids : list Z) (r : nat) (ch : chan) :
  execution cfg0 ids cfg →
  heap (client cfg0) !! r = Some ch →
  closed ch = true →
  ∃ ch', heap (client cfg) !! r = Some ch' ∧ closed ch' = true
         ∧ length (buf ch') ≤ length (buf ch).
Proof.
  intros Hex Hr Hc. induction Hex as [|ids cfg t fire cfg' Hex IH Hstep].
  - exists ch. done.
  - destruct IH as (ch1 & H1 & Hc1 & Hl1).
    apply exec_inv in Hstep as (g & g' & _ & Hstep & _).
    destruct (closed_step _ _ _ _ _ _ _ _ Hstep H1 Hc1) as (ch2 & H2 & Hc2 & Hl2).
    exists ch2. split; [done|]. split; [done|lia].
Qed.

(** X10: the close callback never panics.  In every reachable
    configuration it is not in a panic, and each channel it is about to
    close exists and is open, so that the [close] of line 181
    succeeds. *)
Theorem close_never_panics (cfg : config) (t : nat) (p : closepc) :
  reachable cfg →
  pool cfg !! t = Some (Closer p) →
  p ≠ x_panic ∧ p ≠ x_unlock true
  ∧ ∀ s todo, p = x_close (s :: todo) →
      ∃ ch, heap (client cfg) !! done s = Some ch ∧ chan_close ch = Some (mark_closed ch).
Proof.
  intros Hr Hp. destruct (table_invariant cfg Hr) as (_ & _ & _ & HG).
  specialize (HG t _ Hp). split; [|split].
  - intros ->. done.
  - intros ->. by destruct HG.
  - intros s todo ->. destruct HG as [_ Ho]. simpl in Ho.
    apply andb_prop in Ho as [Ho _]. unfold is_open in Ho.
    destruct (heap (client cfg) !! done s) as [ch|]; [|done].
    exists ch. split; [done|]. apply chan_close_open. by apply negb_true_iff.
Qed.

(** ** The table and the calls *)

Lemma keyed_invariant cfg : reachable cfg → keyed_inv cfg.
Proof.
  apply reachable_invariant; clear cfg.
  - intros cfg (_ & Htab & _) id s. by rewrite Htab, lookup_empty.
  - intros t fire cfg cfg' Hinv Hex id s Hs.
    apply exec_inv in Hex as (g & g' & Hg & Hstep & Hpool).
    destruct (entry_origin _ _ _ _ _ _ _ _ Hstep Hs) as [Hold|(timed & _ & ->)];
      [by eapply Hinv|done].
Qed.

Lemma outstanding_kept timed t fire p c p' c' s :
  caller_step timed t fire p c = Some (p', c') →
  outstanding p = Some s →
  outstanding p' = Some s
  ∨ ∃ r, p = c_defer_delete s r ∧
         sessionMap c' = removeSession_body (seq s) (sessionMap c).
Proof.
  intros Hstep Hs. destruct p; simpl in Hs; simplify_eq;
    step_cases Hstep; eauto.
Qed.

Lemma owner_invariant cfg : reachable cfg → owner_inv cfg.
Proof.
  intros Hr. cut (reachable cfg ∧ owner_inv cfg); [by intros []|].
  revert cfg Hr. apply reachable_invariant.
  - intros cfg Hi. split; [by apply reachable_initial|].
    destruct Hi as (_ & Htab & _). intros id s. by rewrite Htab, lookup_empty.
  - intros t fire cfg cfg' [Hr Hinv] Hex.
    split; [by eapply reachable_step|]. intros id s Hs.
    pose proof (keyed_invariant cfg' (reachable_step _ _ _ _ Hr Hex)) as Hkey'.
    apply exec_inv in Hex as (g & g' & Hg & Hstep & Hpool).
    assert (Ht' : pool cfg' !! t = Some g').
    { rewrite Hpool. apply list_lookup_insert_eq. by eapply lookup_lt_Some. }
    destruct (entry_origin _ _ _ _ _ _ _ _ Hstep Hs) as [Hold|(timed & -> & ->)].
    + destruct (Hinv id s Hold) as (u & timed & p & Hu & Hout).
      destruct (decide (u = t)) as [->|Hne].
      * rewrite Hg in Hu. simplify_eq. simpl in Hstep.
        destruct (caller_step timed t fire p (client cfg)) as [[p' c']|] eqn:Hc;
          [|done].
        simpl in Hstep. simplify_eq.
        destruct (outstanding_kept _ _ _ _ _ _ _ _ Hc Hout) as [Hk|(r & -> & Htab)].
        -- by exists t, timed, p'.
        -- pose proof (Hkey' id s Hs) as <-.
           by rewrite Htab, removeSession_lookup in Hs.
      * exists u, timed, p. split; [|done].
        rewrite Hpool. by rewrite list_lookup_insert_ne.
    + step_cases Hstep. by exists t, timed, (c_unlock s).
Qed.

(** X11: the table does not leak.  In every reachable configuration each
    entry is stored under its own correlation ID and belongs to a call
    that has registered it and has not yet run the delete of its deferred
    [removeSession]; when no call is in that stretch, the table is
    empty. *)
Theorem table_entries_have_callers (cfg : config) :
  reachable cfg →
  (∀ id s, sessionMap (client cfg) !! id = Some s →
     seq s = id
     ∧ ∃ t timed p, pool cfg !! t = Some (Caller timed p) ∧ outstanding p = Some s)
  ∧ ((∀ t timed p, pool cfg !! t = Some (Caller timed p) → outstanding p = None) →
     sessionMap (client cfg) = ∅).
Proof.
  intros Hr.
  pose proof (keyed_invariant cfg Hr) as Hk. pose proof (owner_invariant cfg Hr) as Ho.
  split.
  - intros id s Hs. split; [by eapply Hk|by eapply Ho].
  - intros Hquiet. apply map_empty. intros id.
    destruct (sessionMap (client cfg) !! id) as [s|] eqn:Hs; [|done].
    destruct (Ho id s Hs) as (t & timed & p & Hp & Hout).
    rewrite (Hquiet t timed p Hp) in Hout. done.
Qed.

(** ** Routing of replies *)

Lemma holds_origin t fire g c g' c' s :
  goroutine_step t fire g c = Some (g', c') →
  s ∈ holds_sessions g' →
  s ∈ holds_sessions g
  ∨ (∃ id, sessionMap c !! id = Some s)
  ∨ (∃ timed cmd data, g = Caller timed (c_alloc cmd data) ∧ s = new_session c).
Proof.
  intros Hstep Hs.
  destruct g as [timed p|p|p|];
    [destruct p|destruct p|destruct p as [| | |[|s0 todo]| | | |]|];
    step_cases Hstep; try (by left); try (by apply elem_of_nil in Hs).
  - right; right. apply list_elem_of_singleton in Hs. subst. eauto.
  - right; left. destruct (sessionMap _ !! RpcSeq m) as [s0|] eqn:Hm;
      [|by apply elem_of_nil in Hs].
    apply list_elem_of_singleton in Hs. subst. eauto.
  - right; left. by apply sessions_elem.
  - left. by apply list_elem_of_further.
Qed.

Lemma alloc_heap t fire timed cmd data c g' c' :
  goroutine_step t fire (Caller timed (c_alloc cmd data)) c = Some (g', c') →
  heap c' = heap c ++ [make_chan 1].
Proof. intros Hstep. by step_cases Hstep. Qed.

Lemma live_origin t fire cfg cfg' s :
  exec t fire cfg = Some cfg' →
  live cfg' s →
  live cfg s
  ∨ ((∃ timed cmd data, pool cfg !! t = Some (Caller timed (c_alloc cmd data)))
     ∧ s = new_session (client cfg)
     ∧ heap (client cfg') = heap (client cfg) ++ [make_chan 1]).
Proof.
  intros Hex Hl. apply exec_inv in Hex as (g & g' & Hg & Hstep & Hpool).
  destruct Hl as [(id & Hs)|(u & gu & Hu & Hs)].
  - destruct (entry_origin _ _ _ _ _ _ _ _ Hstep Hs) as [Hold|(timed & -> & _)].
    + left. left. eauto.
    + left. right. exists t, (Caller timed (c_register s)). split; [done|].
      apply list_elem_of_here.
  - rewrite Hpool in Hu.
    destruct (pool_after _ _ _ _ _ _ Hg Hu) as [[-> ->]|[Hne Hu']].
    + destruct (holds_origin _ _ _ _ _ _ _ Hstep Hs)
        as [Hin|[(id & Hid)|(timed & cmd & data & -> & ->)]].
      * left. right. eauto.
      * left. left. eauto.
      * right. split; [eauto|]. split; [done|]. by eapply alloc_heap.
    + left. right. eauto.
Qed.

Lemma chan_recv_buf ch v ch' : chan_recv ch = Received v ch' → buf ch = v :: buf ch'.
Proof.
  unfold chan_recv. destruct (buf ch); [by destruct (closed ch)|]. by intros [= <- <-].
Qed.

Lemma chan_send_buf v ch ch' : chan_send v ch = Sent ch' → buf ch' = buf ch ++ [v].
Proof.
  unfold chan_send. destruct (closed ch); [done|].
  destruct (length (buf ch) <? cap ch); [|done]. by intros [= <-].
Qed.

Lemma buf_origin t fire g c g' c' r ch' v :
  goroutine_step t fire g c = Some (g', c') →
  heap c' !! r = Some ch' → v ∈ buf ch' →
  (∃ ch, heap c !! r = Some ch ∧ v ∈ buf ch)
  ∨ (∃ s0, g = Handler (r_deliver s0 v) ∧ r = done s0).
Proof.
  intros Hstep Hr Hv.
  assert (Hins : ∀ r0 ch0 ch0', heap c !! r0 = Some ch0 →
            <[r0 := ch0']> (heap c) !! r = Some ch' →
            (r = r0 ∧ ch' = ch0') ∨ heap c !! r = Some ch').
  { intros r0 ch0 ch0' H0 H1. destruct (decide (r = r0)) as [->|Hne].
    - rewrite list_lookup_insert_eq in H1 by (by eapply lookup_lt_Some).
      left. by simplify_eq.
    - rewrite list_lookup_insert_ne in H1 by done. by right. }
  destruct g as [timed p|p|p|]; [destruct p|destruct p|destruct p|];
    step_cases Hstep; eauto.
  - apply lookup_app_Some in Hr as [Hr|[_ Hr]]; [eauto|].
    apply list_lookup_singleton_Some in Hr as [_ <-]. by apply elem_of_nil in Hv.
  - match goal with H : chan_recv _ = _ |- _ => apply chan_recv_buf in H as Hb end.
    use_insert Hins.
    left. eexists. split; [eassumption|]. rewrite Hb. by apply list_elem_of_further.
  - match goal with H : chan_send _ _ = _ |- _ => apply chan_send_buf in H as Hb end.
    use_insert Hins.
    rewrite Hb in Hv. apply elem_of_app in Hv as [Hv|Hv]; [eauto|].
    apply list_elem_of_singleton in Hv as ->. right. eauto.
  - match goal with H : chan_close _ = _ |- _ => apply chan_close_buf in H as Hb end.
    use_insert Hins.
    rewrite Hb in Hv. eauto.
Qed.

Lemma msg_envelope k m : msg (envelope k m) = m.
Proof. by destruct k. Qed.

Lemma handler_step_ok t fire g c g' c' :
  goroutine_step t fire g c = Some (g', c') →
  (∀ id s, sessionMap c !! id = Some s → seq s = id) →
  handler_ok g → handler_ok g'.
Proof.
  intros Hstep Hkey Hok.
  destruct g as [timed p|p|p|]; [destruct p|destruct p|destruct p|];
    step_cases Hstep; try done.
  - split; [done|]. intros s Hs. by apply Hkey.
  - destruct Hok as [Hk Hs]. split.
    + rewrite msg_envelope. symmetry. by apply Hs.
    + exists k. by rewrite msg_envelope.
Qed.

Lemma started_handler_ok g : started g = true → handler_ok g.
Proof. destruct g as [timed p|p|p|]; [destruct p|destruct p|destruct p|]; done. Qed.

Lemma started_holds_none g : started g = true → holds_sessions g = [].
Proof. destruct g as [timed p|p|p|]; [destruct p|destruct p|destruct p|]; done. Qed.

Lemma routing_invariant cfg : reachable cfg → routing_inv cfg.
Proof.
  intros Hr. cut (reachable cfg ∧ routing_inv cfg); [by intros []|].
  revert cfg Hr. apply reachable_invariant.
  - intros cfg Hi. split; [by apply reachable_initial|].
    destruct Hi as (_ & Htab & _ & Hst).
    assert (Hnone : ∀ s, ¬ live cfg s).
    { intros s [(id & Hs)|(t & g & Hg & Hs)].
      - by rewrite Htab, lookup_empty in Hs.
      - rewrite started_holds_none in Hs; [by apply elem_of_nil in Hs|].
        apply (proj1 (forallb_forall _ _) Hst). apply list_elem_of_In.
        by eapply list_elem_of_lookup_2. }
    split; [|split; [|split]]; try (intros; exfalso; by eapply Hnone).
    intros t g Hg. apply started_handler_ok.
    apply (proj1 (forallb_forall _ _) Hst). apply list_elem_of_In.
    by eapply list_elem_of_lookup_2.
  - intros t fire cfg cfg' [Hr (H1 & H2 & H3 & H4)] Hex.
    split; [by eapply reachable_step|].
    pose proof (keyed_invariant cfg Hr) as Hkey.
    pose proof (λ s, live_origin t fire cfg cfg' s Hex) as Horigin.
    apply exec_inv in Hex as (g & g' & Hg & Hstep & Hpool).
    pose proof (heap_grows _ _ _ _ _ _ Hstep) as Hlen.
    split; [|split; [|split]].
    + intros s Hs. destruct (Horigin s Hs) as [Hold|(_ & -> & Hheap)].
      * apply H1 in Hold. lia.
      * rewrite Hheap, length_app. simpl. lia.
    + intros s1 s2 Hs1 Hs2 Heq.
      destruct (Horigin s1 Hs1) as [Ho1|(_ & -> & _)];
        destruct (Horigin s2 Hs2) as [Ho2|(_ & -> & _)]; [by eapply H2| | |done].
      * apply H1 in Ho1. simpl in Heq. lia.
      * apply H1 in Ho2. simpl in Heq. lia.
    + intros s ch' v Hs Hch Hv.
      destruct (buf_origin _ _ _ _ _ _ _ _ _ Hstep Hch Hv)
        as [(ch & Hold & Hin)|(s0 & -> & Hdone)].
      * destruct (Horigin s Hs) as [Ho|(_ & -> & _)]; [by eapply H3|].
        simpl in Hold. apply lookup_lt_Some in Hold. lia.
      * pose proof (H4 t _ Hg) as [Hseq Hk]. simpl in Hseq.
        destruct (Horigin s Hs) as [Ho|((timed & cmd & data & Ha) & _)];
          [|by rewrite Hg in Ha].
        split; [|done]. rewrite Hseq. symmetry. apply H2; [done| |done].
        right. exists t, (Handler (r_deliver s0 v)). split; [done|].
        apply list_elem_of_here.
    + intros u gu Hu. rewrite Hpool in Hu.
      destruct (pool_after _ _ _ _ _ _ Hg Hu) as [[-> ->]|[Hne Hu']].
      * eapply handler_step_ok; [exact Hstep|exact Hkey|by eapply H4].
      * by eapply H4.
Qed.


(** X13: the places where a call can be held up.  In a reachable
    configuration a call cannot run its next statement exactly when it
    has returned, or stands at a [Lock] while the mutex is taken, or at
    the send hand-off with a full queue, or at the wait with its channel
    empty and open, the last two with no timer firing. *)
Theorem call_blocks_only_at (cfg : config) (t : nat) (timed fire : bool) (p : callpc) :
  reachable cfg →
  pool cfg !! t = Some (Caller timed p) →
  caller_step timed t fire p (client cfg) = None ↔
    (∃ r, p = c_return r)
    ∨ (at_lock p = true ∧ mu (client cfg) ≠ None)
    ∨ (at_send p = true ∧ timed && fire = false
       ∧ sendQsize (client cfg) ≤ length (chSend (client cfg)))
    ∨ (∃ s ch, p = c_wait s ∧ timed && fire = false
               ∧ heap (client cfg) !! done s = Some ch
               ∧ buf ch = [] ∧ closed ch = false).
Proof.
  intros Hr Hp. destruct (routing_invariant cfg Hr) as (H1 & _).
  assert (Hvalid : ∀ s, s ∈ holds_sessions (Caller timed p) →
            is_Some (heap (client cfg) !! done s)).
  { intros s Hs. apply lookup_lt_is_Some, H1. right. eauto. }
  destruct p; simpl.
  - destruct (mu (client cfg)) eqn:Hmu.
    + split; [intros _; right; left; done|done].
    + split; [done|]. intros [[? ?]|[[_ ?]|[[? _]|(? & ? & ? & _)]]]; done.
  - split; [done|]. intros [[? ?]|[[? _]|[[? _]|(? & ? & ? & _)]]]; done.
  - split; [done|]. intros [[? ?]|[[? _]|[[? _]|(? & ? & ? & _)]]]; done.
  - destruct (timed && fire) eqn:Htf.
    + split; [done|]. intros [[? ?]|[[? _]|[(_ & ? & _)|(? & ? & ? & _)]]]; done.
    + destruct (length (chSend (client cfg)) <? sendQsize (client cfg)) eqn:Hq.
      * split; [done|]. apply Nat.ltb_lt in Hq.
        intros [[? ?]|[[? _]|[(_ & _ & ?)|(? & ? & ? & _)]]]; try done. lia.
      * split; [|done]. intros _. apply Nat.ltb_ge in Hq. right; right; left. done.
  - split; [done|]. intros [[? ?]|[[? _]|[[? _]|(? & ? & ? & _)]]]; done.
  - split; [done|]. intros [[? ?]|[[? _]|[[? _]|(? & ? & ? & _)]]]; done.
  - split; [done|]. intros [[? ?]|[[? _]|[[? _]|(? & ? & ? & _)]]]; done.
  - split; [done|]. intros [[? ?]|[[? _]|[[? _]|(? & ? & ? & _)]]]; done.
  - destruct (Hvalid s) as [ch Hch]; [apply list_elem_of_here|]. rewrite Hch.
    destruct (timed && fire) eqn:Htf.
    + split; [done|]. intros [[? ?]|[[? _]|[[? _]|(? & ? & _ & ? & _)]]]; done.
    + unfold chan_recv. destruct (buf ch) as [|v rest] eqn:Hb.
      * destruct (closed ch) eqn:Hc.
        -- split; [done|].
           intros [[? ?]|[[? _]|[[? _]|(s' & ch' & ? & _ & Hch' & _ & Hc')]]];
             try done. simplify_eq. congruence.
        -- split; [|done]. intros _. right; right; right. exists s, ch. done.
      * split; [done|].
        intros [[? ?]|[[? _]|[[? _]|(s' & ch' & ? & _ & Hch' & Hb' & _)]]];
          try done. simplify_eq. congruence.
  - split; [done|]. intros [[? ?]|[[? _]|[[? _]|(? & ? & ? & _)]]]; done.
  - destruct (mu (client cfg)) eqn:Hmu.
    + split; [intros _; right; left; done|done].
    + split; [done|]. intros [[? ?]|[[_ ?]|[[? _]|(? & ? & ? & _)]]]; done.
  - split; [done|]. intros [[? ?]|[[? _]|[[? _]|(? & ? & ? & _)]]]; done.
  - split; [done|]. intros [[? ?]|[[? _]|[[? _]|(? & ? & ? & _)]]]; done.
  - split; [eauto|done].
Qed.

(** X14: the handler's send races with the close callback.  When the
    handler has looked a session up and unlocked (lines 191-192,
    200-201) and the close callback runs before the send of line 194,
    respectively 203, the send is on a closed channel: the handler
    panics, and nothing is delivered. *)
Theorem delivery_after_close_panics (cfg : config) (t u : nat) (id : Z)
    (s : rpcsession) (v : RpcMessage) :
  reachable cfg →
  pool cfg !! t = Some (Handler (r_deliver s v)) →
  mu (client cfg) = None →
  sessionMap (client cfg) !! id = Some s →
  let c := client cfg in
  let c' := (run_closer (length (sessions c) + 6) u x_lock c).2 in
  (run_closer (length (sessions c) + 6) u x_lock c).1 = x_done
  ∧ ∀ n, run_router (S n) t (r_deliver s v) c' = (r_panic, c').
Proof.
  intros Hr Hp Hmu Hs c c'.
  destruct (close_callback_run u c Hmu (table_open_when_unlocked cfg Hr Hmu))
    as (Hdone & _ & _ & _ & _ & Hheap & _).
  split; [exact Hdone|]. intros n.
  destruct (routing_invariant cfg Hr) as (H1 & _).
  destruct (lookup_lt_is_Some_2 (heap c) (done s)) as [ch Hch].
  { apply H1. left. eauto. }
  assert (Hch' : heap c' !! done s = Some (mark_closed ch)).
  { unfold c'. rewrite Hheap.
    rewrite bool_decide_eq_true_2
      by (apply list_elem_of_fmap_2; by eapply sessions_lookup).
    fold c. by rewrite Hch. }
  cbn [run_router router_step]. rewrite Hch'. simpl. by destruct n.
Qed.

(** ** Bounded channels *)

Lemma chan_recv_bounded ch v ch' :
  chan_recv ch = Received v ch' → chan_bounded ch → chan_bounded ch'.
Proof.
  unfold chan_recv, chan_bounded.
  destruct (buf ch) eqn:Hb; [by destruct (closed ch)|].
  intros [= _ <-]. simpl in *. lia.
Qed.

Lemma chan_send_bounded v ch ch' :
  chan_send v ch = Sent ch' → chan_bounded ch → chan_bounded ch'.
Proof.
  unfold chan_send, chan_bounded. destruct (closed ch); [done|].
  destruct (length (buf ch) <? cap ch) eqn:Hlt; [|done].
  apply Nat.ltb_lt in Hlt. intros [= <-]. simpl. rewrite length_app. simpl. lia.
Qed.

Lemma chan_close_bounded ch ch' :
  chan_close ch = Some ch' → chan_bounded ch → chan_bounded ch'.
Proof.
  unfold chan_close, chan_bounded. destruct (closed ch); [done|].
  by intros [= <-].
Qed.

Lemma bounded_step t fire g c g' c' :
  goroutine_step t fire g c = Some (g', c') →
  (∀ r ch, heap c !! r = Some ch → chan_bounded ch) →
  ∀ r ch, heap c' !! r = Some ch → chan_bounded ch.
Proof.
  intros Hstep Hinv r ch' Hr.
  assert (Hins : ∀ r0 ch0 ch0', <[r0 := ch0']> (heap c) !! r = Some ch' →
            heap c !! r0 = Some ch0 →
            (chan_bounded ch0 → chan_bounded ch0') → chan_bounded ch').
  { intros r0 ch0 ch0' H1 H0 Hkeep. destruct (decide (r = r0)) as [->|Hne].
    - rewrite list_lookup_insert_eq in H1 by (by eapply lookup_lt_Some).
      simplify_eq. by eapply Hkeep, Hinv.
    - rewrite list_lookup_insert_ne in H1 by done. by eapply Hinv. }
  destruct g as [timed p|p|p|]; [destruct p|destruct p|destruct p|];
    step_cases Hstep; eauto.
  - apply lookup_app_Some in Hr as [Hr|[_ Hr]]; [eauto|].
    apply list_lookup_singleton_Some in Hr as [_ <-]. split; simpl; lia.
  - eapply Hins; [eassumption|eassumption|]. by eapply chan_recv_bounded.
  - eapply Hins; [eassumption|eassumption|]. by eapply chan_send_bounded.
  - eapply Hins; [eassumption|eassumption|]. by eapply chan_close_bounded.
Qed.

Lemma bounded_invariant cfg : reachable cfg → bounded_inv cfg.
Proof.
  apply reachable_invariant; clear cfg.
  - intros cfg (_ & _ & Hheap & _) r ch. by rewrite Hheap.
  - intros t fire cfg cfg' Hinv Hex.
    apply exec_inv in Hex as (g & g' & _ & Hstep & _).
    intros r ch. by eapply bounded_step.
Qed.

(** ** Where the handler and the close callback are held up *)

(** X15: the places where the message handler can be held up on a
    reply.  In a reachable configuration the handler, outside of its
    default branch, cannot run its next statement exactly when it is
    done, or has panicked, or stands at its [Lock] while the mutex is
    taken, or stands at its send while the session's channel is open and
    already holds a reply to the same call. *)
Theorem handler_blocks_only_at (cfg : config) (t : nat) (p : routepc) :
  reachable cfg →
  pool cfg !! t = Some (Handler p) →
  on_reply p = true →
  router_step t p (client cfg) = None ↔
    p = r_done ∨ p = r_panic
    ∨ (∃ k m, p = r_lock k m ∧ mu (client cfg) ≠ None)
    ∨ (∃ s v ch w, p = r_deliver s v
                   ∧ heap (client cfg) !! done s = Some ch
                   ∧ closed ch = false ∧ buf ch = [w] ∧ from_handler s w).
Proof.
  intros Hr Hp Hon. destruct (routing_invariant cfg Hr) as (H1 & _ & H3 & _).
  pose proof (bounded_invariant cfg Hr) as Hb.
  destruct p; simpl; try done.
  - split; [done|]. intros [?|[?|[(? & ? & ? & _)|(? & ? & ? & ? & ? & _)]]]; done.
  - destruct (mu (client cfg)) eqn:Hmu.
    + split; [|done]. intros _. do 2 right. left. by exists k, m.
    + split; [done|].
      intros [?|[?|[(? & ? & _ & ?)|(? & ? & ? & ? & ? & _)]]]; done.
  - split; [done|]. intros [?|[?|[(? & ? & ? & _)|(? & ? & ? & ? & ? & _)]]]; done.
  - split; [done|]. intros [?|[?|[(? & ? & ? & _)|(? & ? & ? & ? & ? & _)]]]; done.
  - assert (Hlive : live cfg s).
    { right. exists t, (Handler (r_deliver s v)). split; [done|].
      apply list_elem_of_here. }
    destruct (lookup_lt_is_Some_2 (heap (client cfg)) (done s)) as [ch Hch];
      [by apply H1|].
    rewrite Hch. destruct (Hb _ _ Hch) as [Hcap Hlen].
    unfold chan_send. rewrite Hcap. destruct (closed ch) eqn:Hc.
    + split; [done|].
      intros [?|[?|[(? & ? & ? & _)|(s' & v' & ch' & w & ? & Hch' & Hc' & _)]]];
        try done. simplify_eq. congruence.
    + destruct (buf ch) as [|w [|w' rest]] eqn:Hbuf; simpl in *; [| |lia].
      * split; [done|].
        intros [?|[?|[(? & ? & ? & _)|(s' & v' & ch' & w & ? & Hch' & _ & Hb' & _)]]];
          try done. simplify_eq. congruence.
      * split; [|done]. intros _. do 3 right. exists s, v, ch, w.
        do 4 (split; [done|]). apply (H3 s ch w Hlive Hch).
        rewrite Hbuf. apply list_elem_of_here.
  - split; [done|]. intros [?|[?|[(? & ? & ? & _)|(? & ? & ? & ? & ? & _)]]]; done.
  - split; [by left|done].
  - split; [by right; left|done].
Qed.

(** X16: the close callback is held up by its [Lock] only.  In a
    reachable configuration it cannot run its next statement exactly
    when it is done, or stands at its [Lock] while the mutex is taken. *)
Theorem close_blocks_only_at_lock (cfg : config) (t : nat) (p : closepc) :
  reachable cfg →
  pool cfg !! t = Some (Closer p) →
  closer_step t p (client cfg) = None ↔
    p = x_done ∨ (p = x_lock ∧ mu (client cfg) ≠ None).
Proof.
  intros Hr Hp. destruct (table_invariant cfg Hr) as (_ & _ & _ & HG).
  specialize (HG t _ Hp).
  destruct p as [| | |[|s todo]| | | |]; simpl.
  - destruct (mu (client cfg)) eqn:Hmu.
    + split; [|done]. intros _. by right.
    + split; [done|]. intros [?|[_ ?]]; done.
  - split; [done|]. intros [?|[? _]]; done.
  - split; [done|]. intros [?|[? _]]; done.
  - split; [done|]. intros [?|[? _]]; done.
  - destruct HG as [_ Ho]. simpl in Ho. apply andb_prop in Ho as [Ho _].
    unfold is_open in Ho.
    destruct (heap (client cfg) !! done s) as [ch|]; [|done].
    unfold chan_close. destruct (closed ch); [done|].
    split; [done|]. intros [?|[? _]]; done.
  - split; [done|]. intros [?|[? _]]; done.
  - split; [done|]. intros [?|[? _]]; done.
  - split; [by left|done].
  - done.
Qed.

End Further.

(** * The theorems at sample inputs *)

#[local] Existing Instance sample_codes.

Lemma start_cfg_initial : initial start_cfg.
Proof. repeat split. Qed.

Lemma call_when_not_running_witness :
  run_caller 3 true 0 never (c_lock 7 [x01]) stopped_client
    = (c_return (Ret None (Some ErrRpcClientIsDisconnected)), stopped_client)
  ∧ ∀ n, let c' := snd (run_caller n true 0 never (c_lock 7 [x01]) stopped_client) in
         sendSeq c' = sendSeq stopped_client ∧ chSend c' = chSend stopped_client ∧
         sessionMap c' = sessionMap stopped_client ∧ heap c' = heap stopped_client.
Proof.
  destruct (call_when_not_running true 0 never 7 [x01] stopped_client)
    as (Hrun & Hway & _); [reflexivity..|].
  split; [exact Hrun|exact Hway].
Defined.

Lemma send_timeout_registers_nothing_witness :
  fst (run_caller 5 true 0 at_send (c_lock 7 [x01]) fresh_client)
    = c_return (Ret None (Some ErrRpcCallTimeout))
  ∧ mu (snd (run_caller 5 true 0 at_send (c_lock 7 [x01]) fresh_client)) = None
  ∧ ∀ n, let c' := snd (run_caller n true 0 at_send (c_lock 7 [x01]) fresh_client) in
         sessionMap c' = sessionMap fresh_client ∧ chSend c' = chSend fresh_client.
Proof.
  apply (send_timeout_registers_nothing 0 at_send 7 [x01] fresh_client);
    reflexivity.
Defined.

(** "Echo" on the request bytes 01 02. *)
Lemma Call_payload_witness :
  Call (H := raw_codec) [x45; x63; x68; x6f] [x01; x02]
    = inl (callCmdWithTimeout CmdRpcMethod [x01; x02; x45; x63; x68; x6f; x04])
  ∧ Byte.to_N x04 = 4%N
  ∧ (Byte.to_nat x04 = 4 ↔ 4 ≤ 255).
Proof.
  apply (Call_payload (H := raw_codec) [x45; x63; x68; x6f] [x01; x02] [x01; x02]).
  reflexivity.
Defined.

Lemma absent_id_is_tolerated_witness :
  removeSession_body 9 (sessionMap busy_client) = sessionMap busy_client
  ∧ run_router 5 0 (r_switch late_reply) busy_client = (r_done, busy_client).
Proof.
  destruct (absent_id_is_tolerated busy_client 9) as (Hrm & _ & _ & Hdrop);
    [reflexivity..|].
  split; [exact Hrm|].
  apply (Hdrop 0 reply_ok late_reply); reflexivity.
Defined.

(** C2, counterexample: on [busy_client], after the handler has run on
    the error reply "boom" for call 1, the waiting call does not return
    a nil payload: it returns the body. *)
Lemma remote_error_carries_body :
  ¬ returns_error_without_payload busy_client error_reply session1.
Proof. unfold returns_error_without_payload. vm_compute. discriminate. Qed.

Lemma remote_error_reaches_caller_witness :
  (run_caller 4 false 1 never (c_wait session1)
     (run_router 5 0 (r_switch error_reply) busy_client).2).1
  = c_return (Ret (Some boom) (Some (errors_New boom))).
Proof.
  destruct (remote_error_reaches_caller 0 error_reply session1 (make_chan 1)
              busy_client) as [Hroute Hcall]; [reflexivity..|].
  rewrite Hroute. apply (Hcall false 1 never). reflexivity.
Defined.

Lemma close_wakes_waiters_witness :
  let c := client (after both_waiting start_cfg) in
  let c' := (run_closer (length (sessions c) + 6) 3 x_lock c).2 in
  (run_closer (length (sessions c) + 6) 3 x_lock c).1 = x_done
  ∧ running c' = false
  ∧ sessionMap c' = ∅
  ∧ (run_caller 4 false 0 never (c_wait session1) c').1
    = c_return (Ret None (Some ErrRpcClientIsDisconnected)).
Proof.
  destruct (close_wakes_waiters (after both_waiting start_cfg) 3)
    as (Hd & _ & _ & Hr & Ht & _ & Hw).
  - apply after_reachable; [apply start_cfg_initial|].
    vm_compute. discriminate.
  - reflexivity.
  - split; [exact Hd|]. split; [exact Hr|]. split; [exact Ht|].
    apply (Hw 1%Z session1 (make_chan 1) false 0 never (Ret None None));
      reflexivity.
Defined.

(** C9, counterexample: after lock, test and allocation a caller is at
    the send hand-off and holds the mutex, in [callCmd] (goroutine 0)
    and in [callCmdWithTimeout] (goroutine 1). *)
Lemma send_under_lock :
  ¬ (∀ cfg, reachable cfg → no_lock_at_suspension false cfg)
  ∧ ¬ (∀ cfg, reachable cfg → no_lock_at_suspension true cfg).
Proof.
  split; intros Hclaim.
  - refine (Hclaim (after (replicate 3 (0, false)) start_cfg) _ 0 _ eq_refl _ eq_refl).
    + apply after_reachable; [apply start_cfg_initial|].
      vm_compute. discriminate.
    + left. reflexivity.
  - refine (Hclaim (after (replicate 3 (1, false)) start_cfg) _ 1 _ eq_refl _ eq_refl).
    + apply after_reachable; [apply start_cfg_initial|].
      vm_compute. discriminate.
    + left. reflexivity.
Qed.

Lemma lock_at_suspension_points_witness :
  (at_send (c_wait session1) = true
     → mu (client (after call0_to_wait start_cfg)) = Some 0)
  ∧ (at_wait (c_wait session1) = true
     → mu (client (after call0_to_wait start_cfg)) ≠ Some 0).
Proof.
  apply (lock_at_suspension_points (after call0_to_wait start_cfg) 0 false
           (c_wait session1)).
  - apply after_reachable; [apply start_cfg_initial|].
    vm_compute. discriminate.
  - reflexivity.
Defined.

Lemma session_removed_before_return_witness :
  c_defer_unlock session1 (Ret (Some boom) (Some (errors_New boom)))
    = c_defer_unlock session1 (Ret (Some boom) (Some (errors_New boom)))
  ∧ sessionMap (client (after (call0_to_defer_unlock ++ [(0, false)]) start_cfg))
      !! seq session1 = None.
Proof.
  apply (session_removed_before_return (after call0_to_defer_unlock start_cfg)
           (after (call0_to_defer_unlock ++ [(0, false)]) start_cfg) 0 false false
           (c_defer_unlock session1 (Ret (Some boom) (Some (errors_New boom))))
           session1 (Ret (Some boom) (Some (errors_New boom)))).
  - apply after_reachable; [apply start_cfg_initial|].
    vm_compute. discriminate.
  - vm_compute. reflexivity.
  - reflexivity.
  - reflexivity.
  - reflexivity.
Defined.

Lemma timed_call_outcomes_witness :
  (∀ s, c_return (Ret None (Some ErrRpcCallTimeout)) ≠ c_fallthrough s)
  ∧ (∀ r, c_return (Ret None (Some ErrRpcCallTimeout)) = c_return r →
          call_outcome r ∧ ∀ x, r ≠ Ret x (Some ErrRpcCallClientError))
  ∧ ((∃ r, c_return (Ret None (Some ErrRpcCallTimeout)) = c_return r)
     ∨ (∃ p' c', caller_step true 1 true (c_return (Ret None (Some ErrRpcCallTimeout)))
                   (client (after call1_times_out start_cfg)) = Some (p', c')
                 ∧ remaining p' < remaining (c_return (Ret None (Some ErrRpcCallTimeout))))
     ∨ (at_lock (c_return (Ret None (Some ErrRpcCallTimeout))) = true
        ∧ ∃ u, u ≠ 1 ∧ mu (client (after call1_times_out start_cfg)) = Some u)).
Proof.
  apply (timed_call_outcomes (after call1_times_out start_cfg) 1
           (c_return (Ret None (Some ErrRpcCallTimeout)))).
  - apply after_reachable; [apply start_cfg_initial|].
    vm_compute. discriminate.
  - reflexivity.
Defined.

Lemma correlation_ids_increase_witness :
  sendSeq (client (after two_allocations start_cfg)) = (0 + Z.of_nat 2)%Z
  ∧ (∀ i a, [1; 2]%Z !! i = Some a → a = (0 + Z.of_nat i + 1)%Z)
  ∧ ids_increase [1; 2]%Z.
Proof.
  apply (correlation_ids_increase start_cfg (after two_allocations start_cfg) [1; 2]%Z).
  - apply (after_execution two_allocations start_cfg [1; 2]%Z
             (after two_allocations start_cfg)).
    vm_compute. reflexivity.
  - vm_compute. discriminate.
  - vm_compute. discriminate.
Defined.

(** C1, counterexample: with the counter two short of the largest
    [int64], the first call obtains 2^63 - 1 and the second -2^63. *)
Lemma correlation_ids_wrap_around :
  execution late_cfg [max_int64; min_int64] (after two_allocations late_cfg)
  ∧ ¬ ids_increase [max_int64; min_int64].
Proof.
  split.
  - apply (after_execution two_allocations late_cfg [max_int64; min_int64]
             (after two_allocations late_cfg)).
    vm_compute. reflexivity.
  - intros Hinc.
    pose proof (Hinc 0 1 max_int64 min_int64 eq_refl eq_refl (le_n 1)) as Hlt.
    vm_compute in Hlt. discriminate.
Qed.

(** Each of the three outcomes of [callCmdWithTimeout] occurs. *)
Lemma timed_call_outcomes_occur :
  pool (after call1_gets_reply start_cfg) !! 1
    = Some (Caller true (c_return (Ret (Some boom) (Some (errors_New boom)))))
  ∧ pool (after call1_after_close start_cfg) !! 1
    = Some (Caller true (c_return (Ret None (Some ErrRpcClientIsDisconnected))))
  ∧ pool (after call1_times_out start_cfg) !! 1
    = Some (Caller true (c_return (Ret None (Some ErrRpcCallTimeout)))).
Proof. repeat split; vm_compute; reflexivity. Qed.

(** ** The further properties at sample inputs *)

Lemma full_cfg_initial : initial full_cfg.
Proof. repeat split. Qed.

(** "E" on the request byte 01. *)
Lemma method_encoding_unambiguous_witness :
  [x01] = [x01] ∧ [x45] = [x45].
Proof.
  destruct (method_encoding_unambiguous [x01] [x45] [x01] [x45]) as [Hinj _];
    [simpl; lia..|].
  apply Hinj. reflexivity.
Defined.

(** [CallCmd] with the raw codec on a fresh client, answered by the
    error reply "boom". *)
Lemma call_round_trip_witness :
  CallCmd (H := raw_codec) 7 [x01] = inl (Caller false (c_lock 7 [x01]))
  ∧ sessionMap
      (run_caller 4 false 0 never (c_wait (new_session fresh_client))
         (run_router 5 2
            (r_switch (NewRpcMessage (reply_code reply_error)
                         (seq (new_session fresh_client)) boom))
            (run_caller 6 false 0 never (c_lock 7 [x01]) fresh_client).2).2).2
    = sessionMap fresh_client.
Proof.
  destruct (call_round_trip (H := raw_codec) false 0 2 never reply_error boom 7
              [x01] [x01] fresh_client) as (Hcall & _ & _ & Htab & _);
    [reflexivity|reflexivity|reflexivity|simpl; lia|reflexivity|reflexivity|].
  split; [exact Hcall|exact Htab].
Defined.

Lemma late_reply_is_dropped_witness :
  (run_caller 10 true 1 at_wait (c_lock 7 [x02]) fresh_client).1
    = c_return (Ret None (Some ErrRpcCallTimeout))
  ∧ run_router 5 2 (r_switch error_reply)
      (run_caller 10 true 1 at_wait (c_lock 7 [x02]) fresh_client).2
    = (r_done, (run_caller 10 true 1 at_wait (c_lock 7 [x02]) fresh_client).2).
Proof.
  destruct (late_reply_is_dropped 1 2 7 [x02] fresh_client) as (Hret & _ & Hdrop);
    [reflexivity|reflexivity|simpl; lia|].
  split; [exact Hret|].
  apply (Hdrop reply_error error_reply); reflexivity.
Defined.

Lemma handoff_timeout_consumes_id_witness :
  sendSeq (run_caller 5 true 1 at_send (c_lock 7 [x02]) fresh_client).2 = 1%Z
  ∧ (run_caller 6 false 0 never (c_lock 7 [x01])
       (run_caller 5 true 1 at_send (c_lock 7 [x02]) fresh_client).2).1
    = c_wait session2.
Proof.
  destruct (handoff_timeout_consumes_id 1 at_send 7 [x02] fresh_client)
    as (Hseq & _ & Hnext); [reflexivity..|].
  split; [exact Hseq|].
  apply (Hnext never 7%Z [x01]); [reflexivity|simpl; lia].
Defined.

(** Goroutine 0 at its send hand-off. *)
Lemma mutual_exclusion_witness : 0 = 0.
Proof.
  apply (mutual_exclusion (after (replicate 3 (0, false)) start_cfg) 0 0
           (Caller false (c_send session1 (NewRpcMessage 7 1 [x01])))
           (Caller false (c_send session1 (NewRpcMessage 7 1 [x01])))).
  - apply after_reachable; [apply start_cfg_initial|].
    vm_compute. discriminate.
  - reflexivity.
  - reflexivity.
  - reflexivity.
  - reflexivity.
Defined.

(** Goroutine 0 at the test of the running flag. *)
Lemma shared_state_under_lock_witness :
  mu (client (after [(0, false)] start_cfg)) = Some 0.
Proof.
  destruct (shared_state_under_lock (after [(0, false)] start_cfg) 0
              (Caller false (c_check 7 [x01]))) as [Huse _].
  - apply after_reachable; [apply start_cfg_initial|].
    vm_compute. discriminate.
  - reflexivity.
  - apply Huse. reflexivity.
Defined.

(** Goroutine 0 at its send hand-off, on the full queue: goroutine 1,
    which is about to lock, cannot step. *)
Lemma full_queue_blocks_lock_users_witness :
  exec 0 false (after (replicate 3 (0, false)) full_cfg) = None
  ∧ exec 1 true (after (replicate 3 (0, false)) full_cfg) = None.
Proof.
  destruct (full_queue_blocks_lock_users (after (replicate 3 (0, false)) full_cfg)
              0 false session1 (NewRpcMessage 7 1 [x01])) as (Hself & _ & Hothers & _).
  - apply after_reachable; [apply full_cfg_initial|].
    vm_compute. discriminate.
  - reflexivity.
  - vm_compute. lia.
  - split; [exact Hself|].
    apply (Hothers 1 (callCmdWithTimeout 7 [x02]) true); reflexivity.
Defined.

(** After the close callback, goroutine 0 receives from its closed
    channel, and goroutine 1 from its own. *)
Lemma closed_channel_is_final_witness :
  ∃ ch', heap (client (after (close_finished ++ [(0, false); (1, false)]) start_cfg)) !! 0
           = Some ch'
         ∧ closed ch' = true
         ∧ length (buf ch') ≤ length (buf (mark_closed (make_chan 1))).
Proof.
  apply (closed_channel_is_final (after close_finished start_cfg)
           (after (close_finished ++ [(0, false); (1, false)]) start_cfg) [] 0
           (mark_closed (make_chan 1))).
  - replace (after (close_finished ++ [(0, false); (1, false)]) start_cfg)
      with (after [(0, false); (1, false)] (after close_finished start_cfg))
      by (vm_compute; reflexivity).
    apply (after_execution [(0, false); (1, false)] (after close_finished start_cfg) []
             (after [(0, false); (1, false)] (after close_finished start_cfg))).
    vm_compute. reflexivity.
  - reflexivity.
  - reflexivity.
Defined.

(** The close callback about to close the channels of the two waiting
    calls. *)
Lemma close_never_panics_witness :
  ∃ ch, heap (client (after close_in_progress start_cfg)) !! done session2 = Some ch
        ∧ chan_close ch = Some (mark_closed ch).
Proof.
  destruct (close_never_panics (after close_in_progress start_cfg) 3
              (x_close [session2; session1])) as (_ & _ & Hopen).
  - apply after_reachable; [apply start_cfg_initial|].
    vm_compute. discriminate.
  - reflexivity.
  - apply (Hopen session2 [session1]). reflexivity.
Defined.

(** Goroutines 0 and 1 waiting. *)
Lemma table_entries_have_callers_witness :
  (∀ id s, sessionMap (client (after both_waiting start_cfg)) !! id = Some s →
     seq s = id
     ∧ ∃ t timed p, pool (after both_waiting start_cfg) !! t = Some (Caller timed p)
                    ∧ outstanding p = Some s)
  ∧ ((∀ t timed p, pool (after both_waiting start_cfg) !! t = Some (Caller timed p) →
        outstanding p = None) →
     sessionMap (client (after both_waiting start_cfg)) = ∅).
Proof.
  apply (table_entries_have_callers (after both_waiting start_cfg)).
  apply after_reachable; [apply start_cfg_initial|].
  vm_compute. discriminate.
Defined.


(** Goroutine 0 at its wait, before any reply. *)
Lemma call_blocks_only_at_witness :
  caller_step false 0 false (c_wait session1) (client (after call0_to_wait start_cfg))
    = None
  ↔ (∃ r, c_wait session1 = c_return r)
    ∨ (at_lock (c_wait session1) = true
       ∧ mu (client (after call0_to_wait start_cfg)) ≠ None)
    ∨ (at_send (c_wait session1) = true ∧ false && false = false
       ∧ sendQsize (client (after call0_to_wait start_cfg))
         ≤ length (chSend (client (after call0_to_wait start_cfg))))
    ∨ (∃ s ch, c_wait session1 = c_wait s ∧ false && false = false
               ∧ heap (client (after call0_to_wait start_cfg)) !! done s = Some ch
               ∧ buf ch = [] ∧ closed ch = false).
Proof.
  apply (call_blocks_only_at (after call0_to_wait start_cfg) 0 false false
           (c_wait session1)).
  - apply after_reachable; [apply start_cfg_initial|].
    vm_compute. discriminate.
  - reflexivity.
Defined.

(** The handler of the error reply before its send, then the close
    callback. *)
Lemma delivery_after_close_panics_witness :
  run_router 1 2 (r_deliver session1 (envelope reply_error error_reply))
    (run_closer (length (sessions (client (after handler_at_delivery start_cfg))) + 6)
       3 x_lock (client (after handler_at_delivery start_cfg))).2
  = (r_panic,
     (run_closer (length (sessions (client (after handler_at_delivery start_cfg))) + 6)
        3 x_lock (client (after handler_at_delivery start_cfg))).2).
Proof.
  destruct (delivery_after_close_panics (after handler_at_delivery start_cfg) 2 3 1%Z
              session1 (envelope reply_error error_reply)) as [_ Hpanic].
  - apply after_reachable; [apply start_cfg_initial|].
    vm_compute. discriminate.
  - reflexivity.
  - reflexivity.
  - reflexivity.
  - apply (Hpanic 0).
Defined.

Lemma duplicate_cfg_initial : initial duplicate_cfg.
Proof. repeat split. Qed.

(** The second handler of the same reply, at its send. *)
Lemma handler_blocks_only_at_witness :
  router_step 2 (r_deliver session1 (envelope reply_error error_reply))
    (client (after duplicate_at_delivery duplicate_cfg)) = None
  ↔ r_deliver session1 (envelope reply_error error_reply) = r_done
    ∨ r_deliver session1 (envelope reply_error error_reply) = r_panic
    ∨ (∃ k m, r_deliver session1 (envelope reply_error error_reply) = r_lock k m
              ∧ mu (client (after duplicate_at_delivery duplicate_cfg)) ≠ None)
    ∨ (∃ s v ch w, r_deliver session1 (envelope reply_error error_reply) = r_deliver s v
                   ∧ heap (client (after duplicate_at_delivery duplicate_cfg)) !! done s
                     = Some ch
                   ∧ closed ch = false ∧ buf ch = [w] ∧ from_handler s w).
Proof.
  apply (handler_blocks_only_at (after duplicate_at_delivery duplicate_cfg) 2
           (r_deliver session1 (envelope reply_error error_reply))).
  - apply after_reachable; [apply duplicate_cfg_initial|].
    vm_compute. discriminate.
  - reflexivity.
  - reflexivity.
Defined.

(** The close callback at its [Lock] while goroutine 0 stands at its
    send hand-off. *)
Lemma close_blocks_only_at_lock_witness :
  closer_step 3 x_lock (client (after (replicate 3 (0, false)) start_cfg)) = None
  ↔ x_lock = x_done
    ∨ (x_lock = x_lock ∧ mu (client (after (replicate 3 (0, false)) start_cfg)) ≠ None).
Proof.
  apply (close_blocks_only_at_lock (after (replicate 3 (0, false)) start_cfg) 3 x_lock).
  - apply after_reachable; [apply start_cfg_initial|].
    vm_compute. discriminate.
  - reflexivity.
Defined.
